(** * CSV utility: the tail-watch callback and the one-shot search of
      [src/index.ts], as a shallow embedding.

    Text is [string] (a sequence of 8-bit characters), so the length of a
    file's contents is its size in bytes.  The CSV parser is a library
    the program calls ([csv-parse]); the watch session is therefore
    written over an arbitrary parser, and a concrete parser for plain
    comma/line-feed text is supplied afterwards for the scenarios.

    The watch callback is an [async] function.  [watch_callback] is one
    callback run from its start to its end; [run] composes callbacks
    that follow one another; [overlapped] lets a callback start while
    others are still waiting for their streams, which nothing in the
    program prevents. *)

From Stdlib Require Import List String Ascii Arith Bool Lia.
Import ListNotations.
Local Open Scope string_scope.

(** ** Text helpers *)

Module Text.

Fixpoint drop (n : nat) (s : string) : string :=
  match n, s with
  | 0, _ => s
  | S _, EmptyString => EmptyString
  | S n', String _ s' => drop n' s'
  end.

Fixpoint take (n : nat) (s : string) : string :=
  match n, s with
  | 0, _ => EmptyString
  | S _, EmptyString => EmptyString
  | S n', String c s' => String c (take n' s')
  end.

(** The line feed, which a string literal cannot spell. *)
Definition LF : ascii := ascii_of_nat 10.
Definition nl : string := String LF EmptyString.

(** [n] copies of the letter x: filler for files of a given size. *)
Fixpoint filler (n : nat) : string :=
  match n with
  | 0 => EmptyString
  | S n' => String "x" (filler n')
  end.

(** Splitting at line feeds: the lines that are terminated, and the
    text after the last line feed. *)
Fixpoint cut (s : string) : list string * string :=
  match s with
  | EmptyString => ([], EmptyString)
  | String c rest =>
      let (ls, tail) := cut rest in
      if Ascii.eqb c LF then (EmptyString :: ls, tail)
      else match ls with
           | [] => ([], String c tail)
           | l :: ls' => (String c l :: ls', tail)
           end
  end.

End Text.

(** ** The watch session of [handleStream] *)

(** What a parser stream hands to its [for await] consumer: the records
    it yields, and the error it ends with when it fails. *)
Record parsed := { delivered : list (list string); failure : option string }.

(** [fs.watch] reports one of two event types. *)
Inductive eventType := change | rename.

(** One invocation of the watch callback: the event type, and the
    contents of the file at the path while the callback runs ([None]
    when no file is there).  A callback runs against one snapshot of the
    file and to its end before the next one starts. *)
Record notification := { event : eventType; file : option string }.

(** The two variables the callback closes over (lines 107-108). *)
Record session := { lastSize : nat; headers : list string }.

(** The streams the callback opens. *)
Inductive opened :=
| ReadRange (start end_ : nat)   (* createReadStream(filePath, {start, end}) *)
| ReadWhole.                     (* createReadStream(filePath) *)

(** What reaches the terminal: a one-row table under the header
    (lines 131-136) or a plain line (line 138). *)
Inductive shown :=
| NewRow (head row : list string)
| InfoLine (line : string).

Inductive error :=
| ENOENT                   (* statSync on a missing path *)
| CsvError (code : string).

(** The callback is an [async] function that nobody awaits: it either
    completes, or throws and leaves an unhandled rejection.  Either way
    the session variables keep what was assigned so far. *)
Inductive outcome :=
| Resolved (st : session) (rd : list opened) (out : list shown)
| Rejected (st : session) (rd : list opened) (out : list shown) (e : error).

Definition after (o : outcome) : session :=
  match o with Resolved st _ _ | Rejected st _ _ _ => st end.

Definition reads (o : outcome) : list opened :=
  match o with Resolved _ rd _ | Rejected _ rd _ _ => rd end.

Definition emitted (o : outcome) : list shown :=
  match o with Resolved _ _ out | Rejected _ _ out _ => out end.

Definition thrown (o : outcome) : option error :=
  match o with Resolved _ _ _ => None | Rejected _ _ _ e => Some e end.

(** [createReadStream] with [start] and [end]: both bounds are inclusive,
    and the stream ends at the end of the file. *)
Definition read_range (content : string) (start end_ : nat) : string :=
  Text.take (end_ + 1 - start) (Text.drop start content).

(** A callback that has started and waits for its streams: the size it
    saw, what its range stream yields, the file when it opened the
    stream over the whole file, and the streams it opened. *)
Record pending := {
  seen : nat;
  range : string;
  whole : option string;
  streams : list opened
}.

(** The part of a callback that runs at once, up to its first [await]:
    nothing to do, an exception, or a wait. *)
Inductive started :=
| idle
| threw (e : error)
| awaiting (p : pending).

(** The session variables and the callbacks that wait. *)
Record world := { vars : session; in_flight : list pending }.

(** A notification arrives, or the streams of the [i]-th waiting
    callback have been read and it runs to its end. *)
Inductive action :=
| arrives (n : notification)
| settles (i : nat).

Fixpoint drop_nth {A : Type} (i : nat) (l : list A) : list A :=
  match i, l with
  | _, [] => []
  | 0, _ :: l' => l'
  | S i', x :: l' => x :: drop_nth i' l'
  end.

(** Lines 130-139, for one record. *)
Definition show (hs : list string) (record : list string) : shown :=
  if (0 <? List.length hs)%nat then NewRow hs record
  else InfoLine (String.concat ", " record).

Section Watch.

(** [parse({})] over a byte range, and [parse({to_line: 1})] over the
    whole file. *)
Variable parse : string -> parsed.
Variable parse_to_line_1 : string -> parsed.

(** Line 107-108: the session starts at the size of the file. *)
Definition handleStream_start (content : string) : session :=
  {| lastSize := length content; headers := [] |}.

(** Lines 129-141: the loop over the range parser, then the
    assignment to [lastSize], which a failing parser never reaches. *)
Definition emit_records (st : session) (hs : list string)
    (rd : list opened) (body : string) (size : nat) : outcome :=
  let p := parse body in
  let out := map (show hs) (delivered p) in
  match failure p with
  | Some code =>
      Rejected {| lastSize := lastSize st; headers := hs |} rd out (CsvError code)
  | None => Resolved {| lastSize := size; headers := hs |} rd out
  end.

(** Lines 110-144: the watch callback. *)
Definition watch_callback (st : session) (n : notification) : outcome :=
  match event n with
  | rename => Resolved st [] []
  | change =>
      match file n with
      | None => Rejected st [] [] ENOENT
      | Some content =>
          let size := length content in
          if (lastSize st <? size)%nat then
            let body := read_range content (lastSize st) size in
            let rd := ReadRange (lastSize st) size in
            if ((List.length (headers st) =? 0) && (lastSize st =? 0))%nat then
              let h := parse_to_line_1 content in
              let hs := (headers st ++ List.concat (delivered h))%list in
              match failure h with
              | Some code =>
                  Rejected {| lastSize := lastSize st; headers := hs |}
                           [rd; ReadWhole] [] (CsvError code)
              | None => emit_records st hs [rd; ReadWhole] body size
              end
            else emit_records st (headers st) [rd] body size
          else Resolved st [] []
      end
  end.

(** The callbacks of a run in which each callback has ended before the
    next notification arrives, each starting from the variables the
    previous one left.  The run goes on past a callback that throws, from
    the variables as that callback left them; the process itself ends at
    the first unhandled rejection ([process_run] below, a prefix of
    [run]), so what holds of every callback of [run] holds of every
    callback the process gets to run. *)
Fixpoint run (st : session) (ns : list notification) : list outcome :=
  match ns with
  | [] => []
  | n :: ns' =>
      let o := watch_callback st n in
      o :: run (after o) ns'
  end.

(** The callbacks the process runs: up to the first one that throws. *)
Fixpoint process_run (st : session) (ns : list notification) : list outcome :=
  match ns with
  | [] => []
  | n :: ns' =>
      let o := watch_callback st n in
      o :: match thrown o with
           | Some _ => []
           | None => process_run (after o) ns'
           end
  end.

(** Lines 111-120 and the opening of the streams: what a callback does
    before its first [await].  The guards of lines 113 and 120 are read
    here, from the variables as they are when the notification arrives. *)
Definition callback_begin (st : session) (n : notification) : started :=
  match event n with
  | rename => idle
  | change =>
      match file n with
      | None => threw ENOENT
      | Some content =>
          let size := length content in
          if (lastSize st <? size)%nat then
            let body := read_range content (lastSize st) size in
            let rd := ReadRange (lastSize st) size in
            if ((List.length (headers st) =? 0) && (lastSize st =? 0))%nat then
              awaiting {| seen := size; range := body;
                          whole := Some content; streams := [rd; ReadWhole] |}
            else
              awaiting {| seen := size; range := body;
                          whole := None; streams := [rd] |}
          else idle
      end
  end.

(** Lines 124-141: what a waiting callback does once its streams have
    been read, on the variables as they are by then: the pushes to
    [headers], the rows, the assignment of the size it saw. *)
Definition callback_finish (st : session) (p : pending) : outcome :=
  match whole p with
  | Some content =>
      let h := parse_to_line_1 content in
      let hs := (headers st ++ List.concat (delivered h))%list in
      match failure h with
      | Some code =>
          Rejected {| lastSize := lastSize st; headers := hs |}
                   (streams p) [] (CsvError code)
      | None => emit_records st hs (streams p) (range p) (seen p)
      end
  | None => emit_records st (headers st) (streams p) (range p) (seen p)
  end.

(** One step of the event loop. *)
Definition act (w : world) (a : action) : world * list (option pending * outcome) :=
  match a with
  | arrives n =>
      match callback_begin (vars w) n with
      | idle => (w, [(None, Resolved (vars w) [] [])])
      | threw e => (w, [(None, Rejected (vars w) [] [] e)])
      | awaiting p =>
          ({| vars := vars w; in_flight := (in_flight w ++ [p])%list |}, [])
      end
  | settles i =>
      match nth_error (in_flight w) i with
      | Some p =>
          let o := callback_finish (vars w) p in
          ({| vars := after o; in_flight := drop_nth i (in_flight w) |},
           [(Some p, o)])
      | None => (w, [])
      end
  end.

(** The callbacks that end during a schedule of the event loop, in the
    order in which they end, each with the wait it came from.  (The
    awaits of one callback are taken together: a callback is cut in two
    at its first [await], not at every one.) *)
Fixpoint overlapped (w : world) (acts : list action)
    : list (option pending * outcome) :=
  match acts with
  | [] => []
  | a :: acts' =>
      let (w', done) := act w a in
      (done ++ overlapped w' acts')%list
  end.

(** The same run, each callback paired with the session it started from. *)
Fixpoint steps (st : session) (ns : list notification)
    : list (session * outcome) :=
  match ns with
  | [] => []
  | n :: ns' =>
      let o := watch_callback st n in
      (st, o) :: steps (after o) ns'
  end.

End Watch.

Definition all_emitted (os : list outcome) : list shown := flat_map emitted os.
Definition all_reads (os : list outcome) : list opened := flat_map reads os.

(** A callback resolves the header when it leaves [headers] changed. *)
Definition resolves (step : session * outcome) : bool :=
  if list_eq_dec string_dec (headers (fst step)) (headers (after (snd step)))
  then false else true.

(** Line 138: a record shown without a header. *)
Definition plain_line (record : list string) : shown :=
  InfoLine (String.concat ", " record).

(** A world in which no callback waits. *)
Definition quiet (st : session) : world := {| vars := st; in_flight := [] |}.

(** Two notifications that differ at most in the first [k] bytes of the
    file they find. *)
Definition same_beyond (k : nat) (n n' : notification) : Prop :=
  event n = event n' /\
  match file n, file n' with
  | Some a, Some b => length a = length b /\ Text.drop k a = Text.drop k b
  | None, None => True
  | _, _ => False
  end.

(** ** A parser for plain CSV text

    The behaviour of [csv-parse] under its default options on text that
    has no double quote and no carriage return: fields are separated by
    commas, records by line feeds; text after the last line feed is
    flushed as a last record when the stream ends, unless it is empty;
    the first record of a parser fixes the number of fields, and a record
    of another length makes the parser fail. *)

Module Csv.

Definition comma : ascii := ",".

(** The first field of a line and the fields after it. *)
Fixpoint fields (line : string) : string * list string :=
  match line with
  | EmptyString => (EmptyString, [])
  | String c rest =>
      let (f, fs) := fields rest in
      if Ascii.eqb c comma then (EmptyString, f :: fs) else (String c f, fs)
  end.

Definition record_of (line : string) : list string :=
  let (f, fs) := fields line in f :: fs.

(** The last line of a stream, when it has no terminator. *)
Definition flushed (tail : string) : list string :=
  match tail with
  | EmptyString => []
  | _ => [tail]
  end.

Definition records (s : string) : list (list string) :=
  let (ls, tail) := Text.cut s in
  map record_of (ls ++ flushed tail)%list.

Definition inconsistent : string := "CSV_RECORD_INCONSISTENT_FIELDS_LENGTH".

(** A record of another length than the first makes the parser fail.
    The failure destroys the stream with the records pushed before it,
    so that the consumer gets the records only when all of them have
    the length of the first. *)
Fixpoint check_length (n : nat) (rs : list (list string)) : parsed :=
  match rs with
  | [] => {| delivered := []; failure := None |}
  | r :: rs' =>
      if (List.length r =? n)%nat then
        let p := check_length n rs' in
        match failure p with
        | None => {| delivered := r :: delivered p; failure := None |}
        | Some code => {| delivered := []; failure := Some code |}
        end
      else {| delivered := []; failure := Some inconsistent |}
  end.

(** [parse({})] *)
Definition parse (s : string) : parsed :=
  match records s with
  | [] => {| delivered := []; failure := None |}
  | r :: rs => check_length (List.length r) (r :: rs)
  end.

(** [parse({to_line: 1})]: the parser stops after the first line. *)
Definition parse_to_line_1 (s : string) : parsed :=
  {| delivered := firstn 1 (records s); failure := None |}.

(** Plain text: no double quote, no carriage return. *)
Fixpoint plain (s : string) : bool :=
  match s with
  | EmptyString => true
  | String c rest =>
      negb (Ascii.eqb c (ascii_of_nat 34)) && negb (Ascii.eqb c (ascii_of_nat 13))
      && plain rest
  end.

End Csv.

(** The watch callback over the plain-text parser. *)
Definition csv_callback : session -> notification -> outcome :=
  watch_callback Csv.parse Csv.parse_to_line_1.

Definition csv_run : session -> list notification -> list outcome :=
  run Csv.parse Csv.parse_to_line_1.

(** The header after a growth callback over [content]: lines 120-127. *)
Definition csv_headers (st : session) (content : string) : list string :=
  if ((List.length (headers st) =? 0) && (lastSize st =? 0))%nat
  then (headers st ++ List.concat (firstn 1 (Csv.records content)))%list
  else headers st.

(** A change notification that finds [content] at the path. *)
Definition grown (content : string) : notification :=
  {| event := change; file := Some content |}.

(** ** Append-only growth *)

(** The notifications of a file that holds [base] and then gets [parts]
    appended, one change notification after each part. *)
Fixpoint grow_by (base : string) (parts : list string) : list notification :=
  match parts with
  | [] => []
  | a :: rest => grown (base ++ a) :: grow_by (base ++ a) rest
  end.

(** The ranges that lie end to end from [offset] on, one for each part. *)
Fixpoint ranges (offset : nat) (parts : list string) : list opened :=
  match parts with
  | [] => []
  | a :: rest =>
      ReadRange offset (offset + length a) :: ranges (offset + length a) rest
  end.

(** ** The specification's reassembler, for comparison

    The specification describes a reassembler that holds back the text
    after the last record separator as a pending fragment, and an offset
    that stops before that fragment. *)

Module Reassembler.

(** feed(bytes): the complete records and the remaining fragment. *)
Definition feed (bytes : string) : list string * string := Text.cut bytes.

Definition pendingFragment (bytes : string) : string := snd (feed bytes).


End Reassembler.

(** ** The search loop of [handleSearch] *)

(** A cell of a parsed record: a string, or an array of strings. *)
Inductive cell :=
| Str (s : string)
| Arr (items : list string).

(** A parsed record: its columns in the order the object lists them. *)
Definition record : Type := list (string * cell).

Definition Object_keys (r : record) : list string := map fst r.
Definition Object_values (r : record) : list cell := map snd r.

(** [String(value)]: a string is itself, an array is its items joined
    by commas. *)
Definition String_ (v : cell) : string :=
  match v with
  | Str s => s
  | Arr items => String.concat "," items
  end.

(** [s.includes(t)] *)
Fixpoint includes (s t : string) : bool :=
  if String.prefix t s then true
  else match s with
       | EmptyString => false
       | String _ s' => includes s' t
       end.

(** What the parser of lines 39-44 hands to the loop of line 49: the
    records it yields, and the error it ends with when it fails. *)
Record parsed_records := { yielded : list record; broke : option string }.

(** What [handleSearch] prints after the prompts.  The table is what is
    handed to the table library: the head, the column widths and the rows
    pushed; how the library lays out a cell in its column is its own. *)
Inductive printed :=
| SpinnerStart (msg : string)
| SpinnerStop (msg : string)
| LogInfo (msg : string)
| TablePrinted (head : list string) (colWidths : list nat)
               (rows : list (list string))
| MatchCount (n : nat).

(** Lines 72-77. *)
Definition cell_text (cellValue : cell) : string :=
  match cellValue with
  | Arr items => String.concat ", " items
  | Str s => s
  end.

Section Search.

(** [String.prototype.toLowerCase] *)
Variable toLowerCase : string -> string.

(** Lines 50-52. *)
Definition found (lowerCaseSearch : string) (r : record) : bool :=
  existsb (fun value => includes (toLowerCase (String_ value)) lowerCaseSearch)
          (Object_values r).

(** Lines 46-56: [results] after the loop over the parser's records. *)
Definition search_results (records : list record) (searchTerm : string)
    : list record :=
  filter (found (toLowerCase searchTerm)) records.

(** Lines 36-81. *)
Definition handleSearch (records : list record) (searchTerm : string)
    : list printed :=
  let results := search_results records searchTerm in
  SpinnerStart "Searching CSV file..." ::
  SpinnerStop "Search complete." ::
  match results with
  | [] => [LogInfo "No matching rows found."]
  | first :: _ =>
      let headers := Object_keys first in
      [TablePrinted headers (repeat 20 (List.length headers))
                    (map (fun row => map cell_text (Object_values row)) results);
       MatchCount (List.length results)]
  end.

(** Lines 36-81 from the parser on.  A parser that fails makes the loop
    of line 49 throw: the spinner has started, and nothing else is
    printed, whatever was pushed to [results] before. *)
Definition handleSearch_from (p : parsed_records) (searchTerm : string)
    : list printed * option error :=
  match broke p with
  | Some code => ([SpinnerStart "Searching CSV file..."], Some (CsvError code))
  | None => (handleSearch (yielded p) searchTerm, None)
  end.

End Search.

(** Lower case on the letters A to Z. *)
Definition lower_ascii (c : ascii) : ascii :=
  let n := nat_of_ascii c in
  if ((65 <=? n) && (n <=? 90))%nat then ascii_of_nat (n + 32) else c.

Fixpoint lower (s : string) : string :=
  match s with
  | EmptyString => EmptyString
  | String c s' => String (lower_ascii c) (lower s')
  end.

(** [t] occurs in [s]. *)
Definition substring_of (t s : string) : Prop :=
  exists a b, s = a ++ t ++ b.

(** The texts of the scenarios. *)
Module Scenario.
Import Text.

(** The header line and one row: 8 + 6 bytes. *)
Definition header_and_ann : string := "id,name" ++ nl ++ "1,Ann" ++ nl.

(** The second write arrives in two parts. *)
Definition part1 : string := "2,Bo".
Definition part2 : string := "b" ++ nl ++ "3,Cy" ++ nl.

Definition id_name : list string := ["id"; "name"].

(** The session once the header and the first row have been read. *)
Definition after_ann : session := {| lastSize := 14; headers := id_name |}.

(** A write whose second record has one field where the first has two. *)
Definition bad_rows : string := "4,Di" ++ nl ++ "5" ++ nl.

(** A file put at the path after the watched one was removed. *)
Definition recreated : string :=
  "id,name" ++ nl ++ "9,Zed" ++ nl ++ "7,Kim" ++ nl.

Definition removed : notification := {| event := rename; file := None |}.

(** A session that has reached offset 100 under the header. *)
Definition at_100 : session := {| lastSize := 100; headers := id_name |}.

(** The second write, in two parts cut after its first line. *)
Definition bob_line : string := "2,Bob" ++ nl.
Definition cy_line : string := "3,Cy" ++ nl.

(** Fourteen other bytes in place of the header line and the first row. *)
Definition other_start : string := "zz,zzzz" ++ nl ++ "z,zzz" ++ nl.

(** Two parsed records of a search. *)
Definition ann : record := [("id", Str "1"); ("name", Str "Ann")].
Definition bob : record := [("id", Str "2"); ("name", Str "Bob")].

End Scenario.

(** * Facts *)

Module TextFacts.
Import Text.

Lemma length_app (a b : string) : length (a ++ b) = length a + length b.
Proof. induction a as [|c a IH]; simpl; [reflexivity | now rewrite IH]. Qed.

Lemma app_empty_r (a : string) : a ++ "" = a.
Proof. induction a as [|c a IH]; simpl; [reflexivity | now rewrite IH]. Qed.

Lemma app_assoc (a b c : string) : (a ++ b) ++ c = a ++ b ++ c.
Proof. induction a as [|x a IH]; simpl; [reflexivity | now rewrite IH]. Qed.

Lemma drop_app_length (a b : string) : drop (length a) (a ++ b) = b.
Proof. induction a as [|c a IH]; simpl; [now destruct b | exact IH]. Qed.

Lemma take_all (n : nat) (s : string) : length s <= n -> take n s = s.
Proof.
  revert n; induction s as [|c s IH]; intros [|n] H; simpl in *;
    try reflexivity; try lia.
  f_equal; apply IH; lia.
Qed.

Lemma length_drop (n : nat) (s : string) : length (drop n s) = length s - n.
Proof.
  revert s; induction n as [|n IH]; intros [|c s]; simpl; try reflexivity.
  apply IH.
Qed.

Lemma drop_drop (n m : nat) (s : string) : drop n (drop m s) = drop (m + n) s.
Proof.
  revert s; induction m as [|m IH]; intros s; simpl.
  - reflexivity.
  - destruct s as [|c s]; [now destruct n | apply IH].
Qed.

Lemma length_zero (s : string) : length s = 0 -> s = "".
Proof. now destruct s. Qed.

Lemma length_pos (s : string) : s <> "" -> 0 < length s.
Proof. destruct s; simpl; [congruence | lia]. Qed.

End TextFacts.

Lemma read_range_to_end (content : string) (start : nat) :
  read_range content start (length content) = Text.drop start content.
Proof.
  unfold read_range. apply TextFacts.take_all.
  rewrite TextFacts.length_drop. lia.
Qed.

(** ** The watch callback, for any parser *)

Section WatchFacts.

Variable parse : string -> parsed.
Variable parse_to_line_1 : string -> parsed.

Abbreviation callback := (watch_callback parse parse_to_line_1).
Abbreviation run := (run parse parse_to_line_1).

(** No growth, no work: the guard of line 113. *)
Lemma callback_no_growth (st : session) (content : string) :
  length content <= lastSize st ->
  callback st (grown content) = Resolved st [] [].
Proof.
  intros H. unfold watch_callback; simpl.
  destruct (Nat.ltb_spec (lastSize st) (length content)); [lia | reflexivity].
Qed.

(** The size variable only ever moves up. *)
Lemma callback_monotone (st : session) (n : notification) :
  lastSize st <= lastSize (after (callback st n)).
Proof.
  unfold watch_callback, emit_records.
  destruct (event n); [|simpl; lia].
  destruct (file n) as [content|]; [|simpl; lia].
  destruct (Nat.ltb_spec (lastSize st) (length content)); [|simpl; lia].
  destruct ((List.length (headers st) =? 0)%nat && (lastSize st =? 0)%nat).
  - destruct (failure (parse_to_line_1 content)); [simpl; lia|].
    destruct (failure (parse _)); simpl; lia.
  - destruct (failure (parse _)); simpl; lia.
Qed.

Lemma callback_ignored (st : session) (n : notification) :
  event n = rename \/ file n = None ->
  after (callback st n) = st /\ reads (callback st n) = []
  /\ emitted (callback st n) = [].
Proof.
  unfold watch_callback. intros [H | H]; rewrite H.
  - now simpl.
  - destruct (event n); now simpl.
Qed.

(** A growth callback, spelled out: the range read, the header stage
    when the session is at offset 0 without a header, the rows. *)
Lemma callback_growth (st : session) (content : string) :
  lastSize st < length content ->
  callback st (grown content) =
    let body := Text.drop (lastSize st) content in
    let rd := ReadRange (lastSize st) (length content) in
    if ((List.length (headers st) =? 0) && (lastSize st =? 0))%nat then
      let h := parse_to_line_1 content in
      let hs := (headers st ++ List.concat (delivered h))%list in
      match failure h with
      | Some code =>
          Rejected {| lastSize := lastSize st; headers := hs |}
                   [rd; ReadWhole] [] (CsvError code)
      | None =>
          emit_records parse st hs [rd; ReadWhole] body (length content)
      end
    else emit_records parse st (headers st) [rd] body (length content).
Proof.
  intros H. unfold watch_callback; simpl.
  destruct (Nat.ltb_spec (lastSize st) (length content)); [|lia].
  now rewrite read_range_to_end.
Qed.

(** A growth callback opens its range stream first, at the session's
    offset. *)
Lemma growth_reads_from_offset (st : session) (content : string) :
  lastSize st < length content ->
  hd_error (reads (callback st (grown content)))
  = Some (ReadRange (lastSize st) (length content)).
Proof.
  intros H. rewrite callback_growth by assumption.
  cbv zeta. unfold emit_records.
  destruct (_ && _)%bool.
  - destruct (failure (parse_to_line_1 content)); [reflexivity|].
    destruct (failure (parse _)); reflexivity.
  - destruct (failure (parse _)); reflexivity.
Qed.

(** C7 (idempotent re-notification).  Of two consecutive change
    notifications, when the second finds the file at exactly the size the
    session has reached, the second callback opens no stream, shows no
    record and leaves the session as it was. *)
Theorem renotification_idempotent
    (st : session) (first : notification) (content : string) :
  length content = lastSize (after (callback st first)) ->
  run st [first; grown content]
  = [callback st first; Resolved (after (callback st first)) [] []].
Proof.
  intros H. simpl. rewrite callback_no_growth by lia. reflexivity.
Qed.

(** C2, amended (no shrink reset).  A callback that finds the file at or
    below the size the session has reached does nothing: the size
    variable and the headers are kept, no stream is opened, nothing is
    shown.  So after a shrink, growth that stays at or below the old
    size is not read either; the first read happens when the file
    exceeds the old size, and starts at the old size. *)
Theorem shrink_is_ignored (st : session) (c1 c2 c3 : string) :
  length c1 < lastSize st ->
  length c2 <= lastSize st ->
  lastSize st < length c3 ->
  run st [grown c1; grown c2] = [Resolved st [] []; Resolved st [] []]
  /\ hd_error (all_reads (run st [grown c1; grown c2; grown c3]))
     = Some (ReadRange (lastSize st) (length c3)).
Proof.
  intros H1 H2 H3. simpl.
  rewrite (callback_no_growth st c1) by lia. simpl.
  rewrite (callback_no_growth st c2) by lia. simpl.
  split; [reflexivity|].
  unfold all_reads. simpl. rewrite app_nil_r.
  now apply growth_reads_from_offset.
Qed.

(** C5, amended (removal is not tracked).  A rename notification, which
    is what a deletion raises, is ignored, and a change notification that
    finds no file fails in [statSync]: in both cases nothing is shown, no
    stream is opened and the session variables are kept.  After the
    ignored rename the run goes on from the same session, so later
    notifications are handled as if the removal had not happened. *)
Theorem removal_is_not_terminal
    (st : session) (n : notification) (ns : list notification) :
  event n = rename \/ file n = None ->
  emitted (callback st n) = []
  /\ reads (callback st n) = []
  /\ after (callback st n) = st
  /\ (event n = rename ->
      callback st n = Resolved st [] []
      /\ run st (n :: ns) = Resolved st [] [] :: run st ns)
  /\ (event n = change -> callback st n = Rejected st [] [] ENOENT).
Proof.
  intros H. destruct (callback_ignored st n H) as (Ha & Hr & He).
  repeat (split; [assumption|]). split.
  - intros E. unfold run, watch_callback. rewrite E. split; reflexivity.
  - intros E. destruct H as [H|H]; [congruence|].
    unfold watch_callback. now rewrite E, H.
Qed.

(** C6, amended (a failing record is not contained).  When the parser
    fails on the appended range, the callback throws the parser's error:
    line 141 is not reached, so the size variable is not advanced, and a
    later growth callback opens its range at the same offset again. *)
Theorem parse_failure_escapes (st : session) (content later : string) :
  lastSize st < length content ->
  failure (parse (Text.drop (lastSize st) content)) <> None ->
  length content <= length later ->
  (exists code, thrown (callback st (grown content)) = Some (CsvError code))
  /\ lastSize (after (callback st (grown content))) = lastSize st
  /\ hd_error (reads (callback (after (callback st (grown content)))
                               (grown later)))
     = Some (ReadRange (lastSize st) (length later)).
Proof.
  intros Hgrow Hfail Hlater.
  assert (Hsame : lastSize (after (callback st (grown content))) = lastSize st).
  { rewrite callback_growth by assumption. cbv zeta. unfold emit_records.
    destruct (_ && _)%bool.
    - destruct (failure (parse_to_line_1 content)); [reflexivity|].
      destruct (failure (parse _)); [reflexivity | congruence].
    - destruct (failure (parse _)); [reflexivity | congruence]. }
  split; [|split; [exact Hsame|]].
  - rewrite callback_growth by assumption. cbv zeta. unfold emit_records.
    destruct (_ && _)%bool.
    + destruct (failure (parse_to_line_1 content)) as [c|]; [simpl; eauto|].
      destruct (failure (parse _)) as [c|]; [simpl; eauto | congruence].
    + destruct (failure (parse _)) as [c|]; [simpl; eauto | congruence].
  - rewrite growth_reads_from_offset by lia. now rewrite Hsame.
Qed.


Lemma run_steps (st : session) (ns : list notification) :
  run st ns = map snd (steps parse parse_to_line_1 st ns).
Proof.
  revert st; induction ns as [|n ns IH]; intros st; simpl;
    [reflexivity | now rewrite IH].
Qed.

(** [headers] is written only by the header stage, which runs only when
    it is empty and the session is at offset 0. *)
Lemma headers_written_at_zero (st : session) (n : notification) :
  headers (after (callback st n)) <> headers st ->
  lastSize st = 0 /\ headers st = [] /\ In ReadWhole (reads (callback st n)).
Proof.
  unfold watch_callback, emit_records.
  destruct (event n); [|simpl; congruence].
  destruct (file n) as [content|]; [|simpl; congruence].
  destruct (Nat.ltb_spec (lastSize st) (length content)); [|simpl; congruence].
  destruct (Nat.eqb_spec (List.length (headers st)) 0) as [Hh|Hh];
    destruct (Nat.eqb_spec (lastSize st) 0) as [Hl|Hl]; simpl;
    try (destruct (failure (parse _)); simpl; congruence).
  intros _. apply length_zero_iff_nil in Hh.
  destruct (failure (parse_to_line_1 content));
    [|destruct (failure (parse _))]; simpl; auto.
Qed.

Lemma headers_kept (st : session) (n : notification) :
  headers st <> [] \/ 0 < lastSize st ->
  headers (after (callback st n)) = headers st.
Proof.
  intros H.
  destruct (list_eq_dec string_dec (headers (after (callback st n))) (headers st))
    as [E|E]; [exact E|].
  apply headers_written_at_zero in E. destruct E as (? & ? & _).
  destruct H; [contradiction | lia].
Qed.

Lemma no_resolution_once_set (st : session) (ns : list notification) :
  headers st <> [] \/ 0 < lastSize st ->
  filter resolves (steps parse parse_to_line_1 st ns) = [].
Proof.
  revert st; induction ns as [|n ns IH]; intros st H; simpl; [reflexivity|].
  pose proof (headers_kept st n H) as K.
  unfold resolves at 1; simpl.
  destruct (list_eq_dec string_dec _ _) as [_|E]; [|congruence].
  apply IH. rewrite K.
  destruct H as [H|H]; [now left | right].
  pose proof (callback_monotone st n). lia.
Qed.

Lemma resolved_at_most_once (st : session) (ns : list notification) :
  List.length (filter resolves (steps parse parse_to_line_1 st ns)) <= 1.
Proof.
  revert st; induction ns as [|n ns IH]; intros st; simpl; [lia|].
  unfold resolves at 1; simpl.
  destruct (list_eq_dec string_dec _ _) as [E|E]; [apply IH|].
  simpl. rewrite no_resolution_once_set; [simpl; lia|].
  left. intros Hnil.
  apply E. rewrite Hnil.
  destruct (headers_written_at_zero st n) as (_ & Hh & _); congruence.
Qed.

(** The callbacks the process runs are the first callbacks of [run]. *)
Lemma process_run_is_a_prefix (st : session) (ns : list notification) :
  exists rest,
    run st ns = (process_run parse parse_to_line_1 st ns ++ rest)%list.
Proof.
  revert st. induction ns as [|n ns IH]; intros st; [now exists []|].
  simpl. destruct (thrown (callback st n)).
  - eexists. reflexivity.
  - destruct (IH (after (callback st n))) as [rest E].
    exists rest. simpl. now rewrite E.
Qed.

(** A callback is its start followed at once by its end. *)
Lemma callback_in_two (st : session) (n : notification) :
  callback st n =
  match callback_begin st n with
  | idle => Resolved st [] []
  | threw e => Rejected st [] [] e
  | awaiting p => callback_finish parse parse_to_line_1 st p
  end.
Proof.
  unfold watch_callback, callback_begin, callback_finish.
  destruct (event n); [|reflexivity].
  destruct (file n) as [content|]; [|reflexivity].
  destruct (lastSize st <? length content)%nat; [|reflexivity].
  destruct (_ && _)%bool; reflexivity.
Qed.

(** The guard of line 120 is read when the callback starts. *)
Lemma begin_guard (st : session) (n : notification) (p : pending) :
  callback_begin st n = awaiting p ->
  whole p <> None ->
  lastSize st = 0 /\ headers st = [].
Proof.
  unfold callback_begin.
  destruct (event n); [|discriminate].
  destruct (file n) as [content|]; [|discriminate].
  destruct (lastSize st <? length content)%nat; [|discriminate].
  destruct (Nat.eqb_spec (List.length (headers st)) 0) as [Hh|Hh];
    destruct (Nat.eqb_spec (lastSize st) 0) as [Hl|Hl]; simpl;
    intros E; injection E as <-; simpl; try congruence.
  intros _. split; [exact Hl | now apply length_zero_iff_nil].
Qed.

(** Only a callback that opened the stream over the whole file writes
    to [headers]. *)
Lemma finish_writes_headers (st : session) (p : pending) :
  headers (after (callback_finish parse parse_to_line_1 st p)) <> headers st ->
  whole p <> None.
Proof.
  unfold callback_finish, emit_records.
  destruct (whole p); [discriminate|].
  destruct (failure (parse (range p))); simpl; congruence.
Qed.

(** Past offset 0 a growth callback waits for its range stream alone,
    which yields the bytes from the offset on. *)
Lemma begin_past_offset_zero (st : session) (content : string) :
  0 < lastSize st ->
  lastSize st < length content ->
  callback_begin st (grown content)
  = awaiting {| seen := length content;
                range := Text.drop (lastSize st) content;
                whole := None;
                streams := [ReadRange (lastSize st) (length content)] |}.
Proof.
  intros Hpos Hgrow. unfold callback_begin; simpl.
  destruct (Nat.ltb_spec (lastSize st) (length content)); [|lia].
  destruct (Nat.eqb_spec (lastSize st) 0); [lia|].
  now rewrite andb_false_r, read_range_to_end.
Qed.

Lemma wait_past_offset_zero (st : session) (n : notification) (p : pending) :
  0 < lastSize st ->
  callback_begin st n = awaiting p ->
  whole p = None /\ 0 < seen p /\ ~ In ReadWhole (streams p).
Proof.
  intros Hpos. unfold callback_begin.
  destruct (event n); [|discriminate].
  destruct (file n) as [content|]; [|discriminate].
  destruct (Nat.ltb_spec (lastSize st) (length content)); [|discriminate].
  destruct (Nat.eqb_spec (lastSize st) 0); [lia|].
  rewrite andb_false_r. intros E. injection E as <-. simpl.
  repeat split; [lia | intuition congruence].
Qed.

Lemma Forall_drop_nth {A : Type} (P : A -> Prop) (i : nat) (l : list A) :
  Forall P l -> Forall P (drop_nth i l).
Proof.
  revert i. induction l as [|x l IH]; intros i H; [now destruct i|].
  inversion H; subst. destruct i; simpl; [assumption|].
  constructor; auto.
Qed.

(** Without a header and past offset 0, however the callbacks overlap:
    no callback sets a header or opens the stream over the whole file,
    and what a callback shows is the plain line of each record the parser
    delivers for its range. *)
Lemma headerless_however_overlapped (acts : list action) (w : world) :
  0 < lastSize (vars w) ->
  headers (vars w) = [] ->
  Forall (fun p => whole p = None /\ 0 < seen p /\ ~ In ReadWhole (streams p))
         (in_flight w) ->
  Forall (fun step =>
            headers (after (snd step)) = []
            /\ ~ In ReadWhole (reads (snd step))
            /\ emitted (snd step)
               = match fst step with
                 | None => []
                 | Some p => map plain_line (delivered (parse (range p)))
                 end)
         (overlapped parse parse_to_line_1 w acts).
Proof.
  revert w. induction acts as [|a acts IH]; intros w Hpos Hnil Hwait;
    [constructor|].
  cbn [overlapped]. destruct a as [n|i]; cbn [act].
  - destruct (callback_begin (vars w) n) as [|e|p] eqn:B.
    + apply Forall_app. split; [|now apply IH].
      constructor; [|constructor]. simpl. auto.
    + apply Forall_app. split; [|now apply IH].
      constructor; [|constructor]. simpl. auto.
    + apply IH; simpl; try assumption.
      apply Forall_app. split; [assumption|].
      constructor; [|constructor].
      now apply (wait_past_offset_zero (vars w) n p).
  - destruct (nth_error (in_flight w) i) as [p|] eqn:N; [|now apply IH].
    assert (Hp : whole p = None /\ 0 < seen p /\ ~ In ReadWhole (streams p)).
    { rewrite Forall_forall in Hwait. apply Hwait.
      eapply nth_error_In; eassumption. }
    destruct Hp as (Hw & Hs & Hr).
    assert (Hfin : callback_finish parse parse_to_line_1 (vars w) p
                   = emit_records parse (vars w) [] (streams p) (range p) (seen p)).
    { unfold callback_finish. now rewrite Hw, Hnil. }
    apply Forall_app. split.
    + constructor; [|constructor]. cbn [fst snd]. rewrite Hfin.
      unfold emit_records.
      destruct (failure (parse (range p))); simpl; auto.
    + apply IH; cbn [vars in_flight].
      * rewrite Hfin. unfold emit_records.
        destruct (failure (parse (range p))); simpl; assumption.
      * rewrite Hfin. unfold emit_records.
        destruct (failure (parse (range p))); reflexivity.
      * now apply Forall_drop_nth.
Qed.

(** C8, amended (header resolution only at offset 0).  When callbacks
    run one after the other, at most one callback of a session changes
    [headers], and it started at offset 0 with no header.  However
    callbacks overlap: a callback opens the stream over the whole file
    only if, when it started, the offset was 0 and there was no header,
    and only such a callback writes to [headers]; and when watching
    starts on a file that has content, no callback ever sets a header or
    opens that stream, each growth callback waits for the bytes from the
    offset on, and what it shows is the plain line of the joined fields
    of each record the parser delivers for them (so it is also for a
    single callback run from its start to its end). *)
Theorem header_only_at_offset_zero (content : string) :
  (forall ns,
     List.length (filter resolves
        (steps parse parse_to_line_1 (handleStream_start content) ns)) <= 1
     /\ Forall (fun step =>
                 resolves step = true ->
                 lastSize (fst step) = 0 /\ headers (fst step) = []
                 /\ In ReadWhole (reads (snd step)))
          (steps parse parse_to_line_1 (handleStream_start content) ns))
  /\ (forall st n p,
        callback_begin st n = awaiting p ->
        whole p <> None ->
        lastSize st = 0 /\ headers st = [])
  /\ (forall st p,
        headers (after (callback_finish parse parse_to_line_1 st p)) <> headers st ->
        whole p <> None)
  /\ (forall st c,
        0 < lastSize st -> lastSize st < length c ->
        callback_begin st (grown c)
        = awaiting {| seen := length c;
                      range := Text.drop (lastSize st) c;
                      whole := None;
                      streams := [ReadRange (lastSize st) (length c)] |})
  /\ (forall st c,
        0 < lastSize st -> headers st = [] -> lastSize st < length c ->
        emitted (callback st (grown c))
        = map plain_line (delivered (parse (Text.drop (lastSize st) c))))
  /\ (0 < length content ->
      forall acts,
        Forall (fun step =>
                  headers (after (snd step)) = []
                  /\ ~ In ReadWhole (reads (snd step))
                  /\ emitted (snd step)
                     = match fst step with
                       | None => []
                       | Some p => map plain_line (delivered (parse (range p)))
                       end)
               (overlapped parse parse_to_line_1
                           (quiet (handleStream_start content)) acts)).
Proof.
  split; [|split; [|split; [|split; [|split]]]].
  - intros ns. split; [apply resolved_at_most_once|].
    generalize (handleStream_start content) as st.
    induction ns as [|n ns IH]; intros st; simpl; constructor; [|apply IH].
    unfold resolves; simpl.
    destruct (list_eq_dec string_dec _ _) as [E|E]; [discriminate|].
    intros _. apply headers_written_at_zero. congruence.
  - exact begin_guard.
  - exact finish_writes_headers.
  - exact begin_past_offset_zero.
  - intros st c Hpos Hnil Hgrow.
    rewrite callback_in_two, begin_past_offset_zero by assumption.
    unfold callback_finish, emit_records. cbn [whole range]. rewrite Hnil.
    destruct (failure (parse _)); reflexivity.
  - intros Hpos acts. apply headerless_however_overlapped.
    + exact Hpos.
    + reflexivity.
    + constructor.
Qed.

(** Past offset 0 a callback depends on the file only through its size
    and its bytes from the session's offset on. *)
Lemma callback_same_beyond (k : nat) (st : session) (n n' : notification) :
  k <= lastSize st -> 0 < lastSize st ->
  same_beyond k n n' ->
  callback st n = callback st n'.
Proof.
  intros Hk Hpos [He Hf]. unfold watch_callback. rewrite <- He.
  destruct (event n); [|reflexivity].
  destruct (file n) as [a|], (file n') as [b|]; try contradiction;
    [|reflexivity].
  destruct Hf as [Hlen Hdrop]. rewrite <- Hlen.
  destruct (Nat.ltb_spec (lastSize st) (length a)); [|reflexivity].
  destruct (Nat.eqb_spec (lastSize st) 0) as [Hl|Hl]; [lia|].
  rewrite andb_false_r.
  replace (read_range b (lastSize st) (length a))
    with (read_range a (lastSize st) (length a)); [reflexivity|].
  rewrite read_range_to_end. rewrite Hlen at 1. rewrite read_range_to_end.
  replace (lastSize st) with (k + (lastSize st - k)) by lia.
  rewrite <- !TextFacts.drop_drop. now rewrite Hdrop.
Qed.

Lemma reads_past_offset (st : session) (n : notification) :
  0 < lastSize st ->
  Forall (fun r => exists s e, r = ReadRange s e /\ lastSize st <= s)
         (reads (callback st n)).
Proof.
  intros Hpos. unfold watch_callback, emit_records.
  destruct (event n); [|constructor].
  destruct (file n) as [content|]; [|constructor].
  destruct (Nat.ltb_spec (lastSize st) (length content)); [|constructor].
  destruct (Nat.eqb_spec (lastSize st) 0) as [Hl|Hl]; [lia|].
  rewrite andb_false_r.
  destruct (failure (parse _)); simpl; constructor; eauto.
Qed.

(** C9 (the watch starts at the current end of the file).  The session
    starts with the size of the file as its offset; when the file has
    content at that moment, every stream a callback of the run opens is
    a range that starts at or after that size, and two runs whose
    notifications differ only in those first bytes of the file are the
    same run: what was in the file before the watch started is neither
    read nor shown. *)
Theorem watch_starts_at_end_of_file
    (content : string) (ns ns' : list notification) :
  0 < length content ->
  lastSize (handleStream_start content) = length content
  /\ Forall (fun r => exists s e, r = ReadRange s e /\ length content <= s)
            (all_reads (run (handleStream_start content) ns))
  /\ (Forall2 (same_beyond (length content)) ns ns' ->
      run (handleStream_start content) ns
      = run (handleStream_start content) ns').
Proof.
  intros Hpos. split; [reflexivity|].
  assert (Hinv : length content <= lastSize (handleStream_start content))
    by (simpl; lia).
  revert Hinv. generalize (handleStream_start content) as st.
  intros st Hinv. split.
  - revert st Hinv. induction ns as [|n ns IH]; intros st Hinv; simpl;
      [constructor|].
    apply Forall_app. split.
    + eapply Forall_impl; [|apply reads_past_offset; lia].
      intros r (s & e & -> & Hs). exists s, e. split; [reflexivity | lia].
    + apply IH. pose proof (callback_monotone st n). lia.
  - intros Hsame. revert st Hinv.
    induction Hsame as [|n n' ns ns' Hn _ IH]; intros st Hinv; simpl;
      [reflexivity|].
    rewrite (callback_same_beyond (length content) st n n') by (lia || assumption).
    f_equal. apply IH.
    pose proof (callback_monotone st n'). lia.
Qed.

End WatchFacts.

(** ** The plain-text parser *)

Module CsvFacts.
Import Text Csv.

Lemma cut_nothing (s : string) : cut s = ([], "") -> s = "".
Proof.
  destruct s as [|c rest]; [reflexivity|]. simpl.
  destruct (cut rest) as [ls tail].
  destruct (Ascii.eqb c LF); [discriminate|].
  destruct ls; discriminate.
Qed.

(** Cutting a text whose first part ends on a line boundary. *)
Lemma cut_app (a b : string) :
  snd (cut a) = "" ->
  cut (a ++ b) = ((fst (cut a) ++ fst (cut b))%list, snd (cut b)).
Proof.
  induction a as [|c a IH]; simpl.
  - intros _. now destruct (cut b).
  - destruct (cut a) as [ls tail] eqn:Ea. simpl in IH.
    destruct (Ascii.eqb c LF); simpl.
    + intros H. rewrite (IH H). reflexivity.
    + destruct ls as [|l ls]; simpl; [discriminate|].
      intros H. rewrite (IH H). reflexivity.
Qed.

Lemma records_app (a b : string) :
  snd (cut a) = "" ->
  records (a ++ b) = (records a ++ records b)%list.
Proof.
  intros H. unfold records. rewrite (cut_app a b H).
  destruct (cut a) as [la ta], (cut b) as [lb tb]. simpl in *. subst ta.
  simpl. rewrite app_nil_r, <- map_app, app_assoc. reflexivity.
Qed.

Lemma records_nonempty (s : string) : s <> "" -> records s <> [].
Proof.
  intros Hs Hr. apply Hs, cut_nothing. unfold records in Hr.
  destruct (cut s) as [ls tail].
  apply map_eq_nil, app_eq_nil in Hr. destruct Hr as [-> Hf].
  destruct tail; [reflexivity | discriminate].
Qed.

Lemma check_length_ok (n : nat) (rs : list (list string)) :
  failure (check_length n rs) = None <-> Forall (fun r => List.length r = n) rs.
Proof.
  induction rs as [|r rs IH]; simpl; [now split|].
  destruct (Nat.eqb_spec (List.length r) n) as [E|E]; simpl.
  - destruct (failure (check_length n rs)); simpl.
    + split; [discriminate|]. inversion 1; subst.
      assert (Some s = None) by now apply IH. discriminate.
    + split; [|reflexivity]. intros _. constructor; [exact E | now apply IH].
  - split; [discriminate | inversion 1; contradiction].
Qed.

Lemma check_length_delivered (n : nat) (rs : list (list string)) :
  failure (check_length n rs) = None -> delivered (check_length n rs) = rs.
Proof.
  induction rs as [|r rs IH]; simpl; [reflexivity|].
  destruct (Nat.eqb_spec (List.length r) n); simpl; [|discriminate].
  destruct (failure (check_length n rs)); simpl; [discriminate|].
  intros _. now rewrite IH.
Qed.

(** A parse that succeeds delivers every record of the text. *)
Lemma parse_ok_delivered (s : string) :
  failure (parse s) = None -> delivered (parse s) = records s.
Proof.
  unfold parse. destruct (records s) as [|r rs]; [reflexivity|].
  apply check_length_delivered.
Qed.

Lemma parse_ok_iff (s : string) :
  failure (parse s) = None
  <-> Forall (fun r => List.length r = List.length (hd [] (records s)))
             (records s).
Proof.
  unfold parse. destruct (records s) as [|r rs]; [now split|].
  apply check_length_ok.
Qed.

(** A text that parses as a whole parses in two parts cut on a line
    boundary. *)
Lemma parse_ok_app (a b : string) :
  snd (cut a) = "" ->
  failure (parse (a ++ b)) = None ->
  failure (parse a) = None /\ failure (parse b) = None.
Proof.
  intros Hcut. rewrite !parse_ok_iff, (records_app a b Hcut).
  intros H. apply Forall_app in H. destruct H as [Ha Hb].
  destruct (records a) as [|ra rsa]; simpl in *.
  - split; [constructor|].
    destruct (records b) as [|rb rsb]; [constructor | exact Hb].
  - split; [exact Ha|].
    destruct (records b) as [|rb rsb]; [constructor|]. simpl.
    inversion Hb as [|? ? Hrb _]; subst.
    eapply Forall_impl; [|exact Hb]. simpl. intros r Hr. congruence.
Qed.

End CsvFacts.

(** ** The watch callback over the plain-text parser *)

Lemma csv_growth_ok (st : session) (content : string) :
  lastSize st < length content ->
  failure (Csv.parse (Text.drop (lastSize st) content)) = None ->
  exists rd,
    csv_callback st (grown content)
    = Resolved {| lastSize := length content; headers := csv_headers st content |}
               rd
               (map (show (csv_headers st content))
                    (Csv.records (Text.drop (lastSize st) content))).
Proof.
  intros Hgrow Hok. unfold csv_callback.
  rewrite callback_growth by assumption. cbv zeta.
  unfold csv_headers, emit_records.
  rewrite Hok, (CsvFacts.parse_ok_delivered _ Hok).
  destruct (_ && _)%bool; simpl; eauto.
Qed.

(** C1, amended (reassembly holds on record boundaries only).  For plain
    text appended in two parts, where the first part is empty or ends
    with a line feed and the two parts together parse without error, the
    rows shown by the two callbacks are the rows shown by one callback
    over both parts.  Nothing is held back between callbacks: with the
    header and the first row read, the write of 2,Bo without a line feed
    is shown at once as a row, and the offset moves past it, to 18. *)
Theorem reassembly_on_line_boundaries :
  (forall (st : session) (base p1 p2 : string),
     lastSize st = length base ->
     Csv.plain (p1 ++ p2) = true ->
     Reassembler.pendingFragment p1 = "" ->
     failure (Csv.parse (p1 ++ p2)) = None ->
     all_emitted (csv_run st [grown (base ++ p1); grown (base ++ p1 ++ p2)])
     = all_emitted (csv_run st [grown (base ++ p1 ++ p2)]))
  /\ csv_callback Scenario.after_ann
                  (grown (Scenario.header_and_ann ++ Scenario.part1))
     = Resolved {| lastSize := 18; headers := Scenario.id_name |}
                [ReadRange 14 18]
                [NewRow Scenario.id_name ["2"; "Bo"]].
Proof.
  split; [|reflexivity].
  intros st base p1 p2 Hbase _ Hfrag Hok.
  unfold Reassembler.pendingFragment, Reassembler.feed in Hfrag.
  destruct (CsvFacts.parse_ok_app p1 p2 Hfrag Hok) as [Hok1 Hok2].
  unfold csv_run, all_emitted. cbn [run flat_map]. rewrite !app_nil_r.
  change (watch_callback Csv.parse Csv.parse_to_line_1) with csv_callback.
  destruct (string_dec p1 "") as [-> | Hne1].
  { (* nothing in the first part *)
    rewrite TextFacts.app_empty_r. change ("" ++ p2) with p2.
    unfold csv_callback. rewrite callback_no_growth by lia.
    reflexivity. }
  apply TextFacts.length_pos in Hne1 as Hpos1.
  assert (Hlen1 : lastSize st < length (base ++ p1))
    by (rewrite TextFacts.length_app; lia).
  assert (Hdrop1 : Text.drop (lastSize st) (base ++ p1) = p1)
    by (rewrite Hbase; apply TextFacts.drop_app_length).
  assert (Hdrop12 : Text.drop (lastSize st) (base ++ p1 ++ p2) = p1 ++ p2)
    by (rewrite Hbase; apply TextFacts.drop_app_length).
  assert (Hlen12 : lastSize st < length (base ++ p1 ++ p2))
    by (rewrite !TextFacts.length_app; lia).
  (* the header is the same in both runs *)
  assert (Hhs : csv_headers st (base ++ p1 ++ p2) = csv_headers st (base ++ p1)).
  { unfold csv_headers.
    destruct (Nat.eqb_spec (lastSize st) 0) as [Hz|Hz];
      [|now rewrite andb_false_r].
    assert (base = "") as -> by (apply TextFacts.length_zero; lia).
    change ("" ++ p1 ++ p2) with (p1 ++ p2). change ("" ++ p1) with p1.
    rewrite (CsvFacts.records_app p1 p2 Hfrag).
    pose proof (CsvFacts.records_nonempty p1 Hne1) as Hne.
    destruct (Csv.records p1); [contradiction | reflexivity]. }
  destruct (csv_growth_ok st (base ++ p1)) as [rd1 E1];
    [assumption | now rewrite Hdrop1 |].
  destruct (csv_growth_ok st (base ++ p1 ++ p2)) as [rd12 E12];
    [assumption | now rewrite Hdrop12 |].
  rewrite E1, E12, Hdrop1, Hdrop12, Hhs.
  cbn [after emitted].
  rewrite (CsvFacts.records_app p1 p2 Hfrag), map_app. f_equal.
  set (st1 := {| lastSize := length (base ++ p1);
                 headers := csv_headers st (base ++ p1) |}).
  destruct (string_dec p2 "") as [-> | Hne2].
  { rewrite TextFacts.app_empty_r.
    unfold csv_callback. rewrite callback_no_growth by (unfold st1; simpl; lia).
    reflexivity. }
  apply TextFacts.length_pos in Hne2 as Hpos2.
  assert (Hdrop2 : Text.drop (lastSize st1) (base ++ p1 ++ p2) = p2).
  { unfold st1; cbn [lastSize]. rewrite <- TextFacts.app_assoc.
    apply TextFacts.drop_app_length. }
  destruct (csv_growth_ok st1 (base ++ p1 ++ p2)) as [rd2 E2].
  - unfold st1; cbn [lastSize]. rewrite !TextFacts.length_app. lia.
  - now rewrite Hdrop2.
  - rewrite E2, Hdrop2. cbn [emitted].
    unfold csv_headers, st1. cbn [lastSize headers].
    destruct (Nat.eqb_spec (length (base ++ p1)) 0) as [Hz|Hz];
      [lia | now rewrite andb_false_r].
Qed.

(** ** The search loop *)

Lemma prefix_app (t s : string) :
  String.prefix t s = true <-> exists b, s = t ++ b.
Proof.
  revert s; induction t as [|c t IH]; intros s; simpl.
  - destruct s; (split; [intros _; eauto | reflexivity]).
  - destruct s as [|d s]; simpl.
    + split; [discriminate | intros [b Hb]; discriminate].
    + destruct (ascii_dec c d) as [->|Hcd].
      * rewrite IH. split; intros [b Hb]; exists b; congruence.
      * split; [discriminate | intros [b Hb]; congruence].
Qed.

Lemma includes_unfold (s t : string) :
  includes s t =
  if String.prefix t s then true
  else match s with
       | EmptyString => false
       | String _ s' => includes s' t
       end.
Proof. destruct s; reflexivity. Qed.

(** [includes] is the substring test. *)
Lemma includes_spec (s t : string) :
  includes s t = true <-> substring_of t s.
Proof.
  unfold substring_of. induction s as [|c s IH]; rewrite includes_unfold.
  - destruct (String.prefix t "") eqn:P.
    + split; [intros _|reflexivity].
      apply prefix_app in P. destruct P as [b Hb]. now exists "", b.
    + split; [discriminate|]. intros (a & b & H).
      destruct a; [|discriminate]. simpl in H.
      assert (String.prefix t "" = true) by (apply prefix_app; eauto).
      congruence.
  - destruct (String.prefix t (String c s)) eqn:P.
    + split; [intros _|reflexivity].
      apply prefix_app in P. destruct P as [b Hb]. now exists "", b.
    + rewrite IH. split.
      * intros (a & b & ->). now exists (String c a), b.
      * intros (a & b & H). destruct a as [|x a]; simpl in H.
        -- assert (String.prefix t (String c s) = true)
             by (apply prefix_app; eauto).
           congruence.
        -- injection H as _ ->. eauto.
Qed.

Section SearchFacts.

Variable toLowerCase : string -> string.

Lemma found_spec (lowerCaseSearch : string) (r : record) :
  found toLowerCase lowerCaseSearch r = true
  <-> exists value, In value (Object_values r)
        /\ substring_of lowerCaseSearch (toLowerCase (String_ value)).
Proof.
  unfold found. rewrite existsb_exists.
  split; intros (v & Hin & Hv); exists v; (split; [exact Hin|]);
    now apply includes_spec.
Qed.

(** C10 (search membership).  A parsed record is among the results
    exactly when one of its values, as a string in lower case, contains
    the search term in lower case; the results keep the order of the
    records; two terms with the same lower case give the same results;
    when there is no result, the search prints its two spinner lines
    and the line that nothing matched, and no table; otherwise it prints
    one table with a row for each result, and their number. *)
Theorem search_membership
    (records : list record) (searchTerm : string) (r : record) :
  (In r (search_results toLowerCase records searchTerm)
   <-> In r records
       /\ exists value, In value (Object_values r)
            /\ substring_of (toLowerCase searchTerm)
                            (toLowerCase (String_ value)))
  /\ search_results toLowerCase records searchTerm
     = filter (found toLowerCase (toLowerCase searchTerm)) records
  /\ (forall other, toLowerCase other = toLowerCase searchTerm ->
        search_results toLowerCase records other
        = search_results toLowerCase records searchTerm)
  /\ (search_results toLowerCase records searchTerm = [] ->
      handleSearch toLowerCase records searchTerm
      = [SpinnerStart "Searching CSV file..."; SpinnerStop "Search complete.";
         LogInfo "No matching rows found."])
  /\ (forall first rest,
        search_results toLowerCase records searchTerm = first :: rest ->
        handleSearch toLowerCase records searchTerm
        = [SpinnerStart "Searching CSV file..."; SpinnerStop "Search complete.";
           TablePrinted (Object_keys first)
             (repeat 20 (List.length (Object_keys first)))
             (map (fun row => map cell_text (Object_values row)) (first :: rest));
           MatchCount (S (List.length rest))]).
Proof.
  split; [|split; [reflexivity | split; [|split]]].
  - unfold search_results. rewrite filter_In, found_spec. reflexivity.
  - intros other H. unfold search_results. now rewrite H.
  - intros H. unfold handleSearch. now rewrite H.
  - intros first rest H. unfold handleSearch. now rewrite H.
Qed.

End SearchFacts.

(** ** Scenarios *)

Import Scenario.

(** C1, counterexample.  With the header and the first row read, the
    write of 2,Bo without a line feed is shown at once as a row, and the
    two writes together show other rows than one write of both parts,
    which shows the rows of Bob and Cy. *)
Lemma fragment_is_not_held :
  emitted (csv_callback after_ann (grown (header_and_ann ++ part1)))
  = [NewRow id_name ["2"; "Bo"]]
  /\ all_emitted (csv_run after_ann [grown (header_and_ann ++ part1);
                                     grown (header_and_ann ++ part1 ++ part2)])
     <> all_emitted (csv_run after_ann
                             [grown (header_and_ann ++ part1 ++ part2)])
  /\ all_emitted (csv_run after_ann [grown (header_and_ann ++ part1 ++ part2)])
     = [NewRow id_name ["2"; "Bob"]; NewRow id_name ["3"; "Cy"]].
Proof.
  split; [reflexivity|]. split; [|reflexivity].
  vm_compute. discriminate.
Qed.

Lemma reassembly_on_line_boundaries_witness :
  all_emitted (csv_run after_ann
                 [grown (header_and_ann ++ bob_line);
                  grown (header_and_ann ++ bob_line ++ cy_line)])
  = all_emitted (csv_run after_ann
                 [grown (header_and_ann ++ bob_line ++ cy_line)]).
Proof.
  apply (proj1 reassembly_on_line_boundaries
           after_ann header_and_ann bob_line cy_line);
    reflexivity.
Defined.

(** C2, counterexample.  From offset 100, a shrink to 40 bytes leaves
    the offset at 100 and the header in place, and the growth to 70
    bytes that follows is not read. *)
Lemma shrink_does_not_reset :
  after (csv_callback at_100 (grown (Text.filler 40))) = at_100
  /\ lastSize at_100 <> 0 /\ headers at_100 <> []
  /\ all_reads (csv_run at_100 [grown (Text.filler 40); grown (Text.filler 70)])
     = [].
Proof.
  split; [reflexivity|]. split; [discriminate|]. split; [discriminate|].
  reflexivity.
Qed.

Lemma shrink_is_ignored_witness :
  csv_run at_100 [grown (Text.filler 40); grown (Text.filler 70)]
  = [Resolved at_100 [] []; Resolved at_100 [] []]
  /\ hd_error (all_reads (csv_run at_100
       [grown (Text.filler 40); grown (Text.filler 70); grown (Text.filler 130)]))
     = Some (ReadRange 100 130).
Proof.
  apply (shrink_is_ignored Csv.parse Csv.parse_to_line_1 at_100
           (Text.filler 40) (Text.filler 70) (Text.filler 130));
    vm_compute; lia.
Defined.

(** C3, counterexample.  Started on an empty file, the callback for the
    write of the header line and one row shows two rows, the header line
    being the first, and leaves the offset at 14. *)
Lemma header_line_is_shown :
  csv_callback (handleStream_start "") (grown header_and_ann)
  = Resolved {| lastSize := 14; headers := id_name |}
             [ReadRange 0 14; ReadWhole]
             [NewRow id_name id_name; NewRow id_name ["1"; "Ann"]]
  /\ lastSize (after (csv_callback (handleStream_start "") (grown header_and_ann)))
     <> 13
  /\ emitted (csv_callback (handleStream_start "") (grown header_and_ann))
     <> [NewRow id_name ["1"; "Ann"]].
Proof.
  split; [reflexivity|]. split; vm_compute; discriminate.
Qed.

(** C3, amended.  Started on an empty file, the callback for the write
    of the header line and one row completes, sets the header to id and
    name, shows the row 1, Ann under that header as its last row, and
    leaves the offset at 14, the size of the file. *)
Theorem header_then_one_row :
  thrown (csv_callback (handleStream_start "") (grown header_and_ann)) = None
  /\ headers (after (csv_callback (handleStream_start "") (grown header_and_ann)))
     = ["id"; "name"]
  /\ last (emitted (csv_callback (handleStream_start "") (grown header_and_ann)))
          (InfoLine "")
     = NewRow ["id"; "name"] ["1"; "Ann"]
  /\ lastSize (after (csv_callback (handleStream_start "") (grown header_and_ann)))
     = 14
  /\ length header_and_ann = 14.
Proof. repeat split; reflexivity. Qed.



(** C5, counterexample.  The removal of the file shows nothing, and the
    change notification for a new file at the path shows its row past
    the old offset. *)
Lemma removal_goes_unnoticed :
  all_emitted (csv_run after_ann [removed]) = []
  /\ all_emitted (csv_run after_ann [removed; grown recreated])
     = [NewRow id_name ["7"; "Kim"]].
Proof. split; reflexivity. Qed.

Lemma removal_is_not_terminal_witness :
  csv_run after_ann [removed; grown recreated]
  = [Resolved after_ann [] []; csv_callback after_ann (grown recreated)].
Proof.
  apply (removal_is_not_terminal Csv.parse Csv.parse_to_line_1 after_ann removed
           [grown recreated]); [left|]; reflexivity.
Defined.

(** C6, counterexample.  A write whose second record has one field
    makes the callback throw the parser's error, with the offset still
    at 14 under a file of 21 bytes. *)
Lemma bad_row_stops_the_callback :
  thrown (csv_callback after_ann (grown (header_and_ann ++ bad_rows)))
  = Some (CsvError Csv.inconsistent)
  /\ lastSize (after (csv_callback after_ann (grown (header_and_ann ++ bad_rows))))
     = 14
  /\ length (header_and_ann ++ bad_rows) = 21.
Proof. repeat split; reflexivity. Qed.

Lemma parse_failure_escapes_witness :
  (exists code,
     thrown (csv_callback after_ann (grown (header_and_ann ++ bad_rows)))
     = Some (CsvError code))
  /\ lastSize (after (csv_callback after_ann (grown (header_and_ann ++ bad_rows))))
     = lastSize after_ann
  /\ hd_error (reads (csv_callback
         (after (csv_callback after_ann (grown (header_and_ann ++ bad_rows))))
         (grown (header_and_ann ++ bad_rows ++ cy_line))))
     = Some (ReadRange (lastSize after_ann)
                       (length (header_and_ann ++ bad_rows ++ cy_line))).
Proof.
  apply (parse_failure_escapes Csv.parse Csv.parse_to_line_1 after_ann
           (header_and_ann ++ bad_rows) (header_and_ann ++ bad_rows ++ cy_line));
    [vm_compute; lia | discriminate | vm_compute; lia].
Defined.

Lemma renotification_idempotent_witness :
  csv_run (handleStream_start "") [grown header_and_ann; grown header_and_ann]
  = [csv_callback (handleStream_start "") (grown header_and_ann);
     Resolved (after (csv_callback (handleStream_start "") (grown header_and_ann)))
              [] []].
Proof.
  apply (renotification_idempotent Csv.parse Csv.parse_to_line_1
           (handleStream_start "") (grown header_and_ann) header_and_ann).
  reflexivity.
Defined.

(** C8, counterexample.  The watch starts on an empty file, the header
    line and one row are written, and two change notifications arrive
    for that write, the second before the first callback has read its
    streams.  Both callbacks pass the guard of line 120; the first sets
    the header to id, name and the second pushes the same two names
    again: the header is written twice. *)
Lemma header_pushed_twice_when_callbacks_overlap :
  map snd (overlapped Csv.parse Csv.parse_to_line_1
             (quiet (handleStream_start ""))
             [arrives (grown header_and_ann); arrives (grown header_and_ann);
              settles 0; settles 0])
  = [Resolved {| lastSize := 14; headers := ["id"; "name"] |}
              [ReadRange 0 14; ReadWhole]
              [NewRow ["id"; "name"] ["id"; "name"];
               NewRow ["id"; "name"] ["1"; "Ann"]];
     Resolved {| lastSize := 14; headers := ["id"; "name"; "id"; "name"] |}
              [ReadRange 0 14; ReadWhole]
              [NewRow ["id"; "name"; "id"; "name"] ["id"; "name"];
               NewRow ["id"; "name"; "id"; "name"] ["1"; "Ann"]]]
  /\ headers (handleStream_start "") <> ["id"; "name"]
  /\ ["id"; "name"] <> ["id"; "name"; "id"; "name"].
Proof. split; [reflexivity|]. split; discriminate. Qed.

Lemma header_only_at_offset_zero_witness :
  Forall (fun step =>
            headers (after (snd step)) = []
            /\ ~ In ReadWhole (reads (snd step))
            /\ emitted (snd step)
               = match fst step with
                 | None => []
                 | Some p => map plain_line (delivered (Csv.parse (range p)))
                 end)
         (overlapped Csv.parse Csv.parse_to_line_1
            (quiet (handleStream_start header_and_ann))
            [arrives (grown (header_and_ann ++ bob_line));
             arrives (grown (header_and_ann ++ bob_line ++ cy_line));
             settles 1; settles 0]).
Proof.
  apply (proj2 (proj2 (proj2 (proj2 (proj2
           (header_only_at_offset_zero Csv.parse Csv.parse_to_line_1
              header_and_ann)))))).
  vm_compute; lia.
Defined.

Lemma watch_starts_at_end_of_file_witness :
  csv_run (handleStream_start header_and_ann) [grown (header_and_ann ++ bob_line)]
  = csv_run (handleStream_start header_and_ann) [grown (other_start ++ bob_line)].
Proof.
  apply (watch_starts_at_end_of_file Csv.parse Csv.parse_to_line_1 header_and_ann
           [grown (header_and_ann ++ bob_line)] [grown (other_start ++ bob_line)]).
  - vm_compute; lia.
  - constructor; [|constructor]. split; [reflexivity|]. split; reflexivity.
Defined.

Lemma search_membership_witness :
  In ann (search_results lower [ann; bob] "aN").
Proof.
  apply (search_membership lower [ann; bob] "aN" ann).
  split; [left; reflexivity|].
  exists (Str "Ann"). split; [right; left; reflexivity|].
  exists "", "n". reflexivity.
Defined.

(** * Further properties of the watch callback *)

Lemma take_drop (n : nat) (s : string) : Text.take n s ++ Text.drop n s = s.
Proof.
  revert s; induction n as [|n IH]; intros [|c s]; simpl; try reflexivity.
  now rewrite IH.
Qed.

(** The range stream of lines 114-117 is opened with the size of the
    file as its inclusive end, one position past the last byte; it still
    yields exactly the bytes from the offset to the end of the file, so
    that the bytes before the offset and the bytes read make up the file,
    and so does any end at or past the last byte. *)
Theorem range_read_is_the_tail (content : string) (start end_ : nat) :
  length content <= end_ + 1 ->
  read_range content start end_ = Text.drop start content
  /\ Text.take start content ++ read_range content start end_ = content
  /\ length (read_range content start (length content))
     = length content - start.
Proof.
  intros He.
  assert (E : read_range content start end_ = Text.drop start content).
  { unfold read_range. apply TextFacts.take_all.
    rewrite TextFacts.length_drop. lia. }
  split; [exact E|]. split.
  - rewrite E. apply take_drop.
  - rewrite read_range_to_end. apply TextFacts.length_drop.
Qed.

Section WatchRuns.

Variable parse : string -> parsed.
Variable parse_to_line_1 : string -> parsed.

Abbreviation callback := (watch_callback parse parse_to_line_1).
Abbreviation run_ := (run parse parse_to_line_1).

Lemma session_eta (st : session) :
  {| lastSize := lastSize st; headers := headers st |} = st.
Proof. now destruct st. Qed.

Lemma last_after_cons (o : outcome) (os : list outcome) (st : session) :
  last (after o :: map after os) st = last (map after os) (after o).
Proof.
  revert o st; induction os as [|o' os IH]; intros o st; [reflexivity|].
  change (last (after o :: map after (o' :: os)) st)
    with (last (after o' :: map after os) st).
  change (map after (o' :: os)) with (after o' :: map after os).
  now rewrite !IH.
Qed.

(** Once the header stage is over, a growth callback is the loop over
    the range parser alone. *)
Lemma growth_past_header (st : session) (content : string) :
  headers st <> [] \/ 0 < lastSize st ->
  lastSize st < length content ->
  callback st (grown content)
  = emit_records parse st (headers st)
      [ReadRange (lastSize st) (length content)]
      (Text.drop (lastSize st) content) (length content).
Proof.
  intros Hover Hgrow. rewrite callback_growth by assumption. cbv zeta.
  destruct (Nat.eqb_spec (List.length (headers st)) 0) as [Hh|Hh];
    [|reflexivity].
  destruct (Nat.eqb_spec (lastSize st) 0) as [Hl|Hl]; [|reflexivity].
  apply length_zero_iff_nil in Hh. destruct Hover; [contradiction | lia].
Qed.

Lemma completed_growth_offset (st : session) (content : string) :
  lastSize st < length content ->
  thrown (callback st (grown content)) = None ->
  lastSize (after (callback st (grown content))) = length content.
Proof.
  intros Hgrow. rewrite callback_growth by assumption.
  cbv zeta. unfold emit_records.
  destruct (_ && _)%bool.
  - destruct (failure (parse_to_line_1 content)); [discriminate|].
    destruct (failure (parse _)); [discriminate | reflexivity].
  - destruct (failure (parse _)); [discriminate | reflexivity].
Qed.

Lemma failed_growth_offset (st : session) (content : string) :
  lastSize st < length content ->
  failure (parse (Text.drop (lastSize st) content)) <> None ->
  thrown (callback st (grown content)) <> None
  /\ lastSize (after (callback st (grown content))) = lastSize st.
Proof.
  intros Hgrow Hfail. rewrite callback_growth by assumption.
  cbv zeta. unfold emit_records.
  destruct (_ && _)%bool.
  - destruct (failure (parse_to_line_1 content)); [simpl; split; congruence|].
    destruct (failure (parse _)); [simpl; split; congruence | congruence].
  - destruct (failure (parse _)); [simpl; split; congruence | congruence].
Qed.

(** For a file that only grows, with callbacks that run one after the
    other and a parser that accepts every appended part, a session past
    its header stage hands each appended part to the parser exactly once
    and in order: the ranges opened lie end to end from the session's
    offset, the rows shown are the records of the first part, then of
    the second, and so on, no callback throws, and the offset ends at
    the size of the file. *)
Theorem append_only_read_once (parts : list string) (st : session) (base : string) :
  lastSize st = length base ->
  headers st <> [] \/ 0 < lastSize st ->
  Forall (fun a => a <> "" /\ failure (parse a) = None) parts ->
  all_emitted (run_ st (grow_by base parts))
  = flat_map (fun a => map (show (headers st)) (delivered (parse a))) parts
  /\ all_reads (run_ st (grow_by base parts)) = ranges (length base) parts
  /\ Forall (fun o => thrown o = None) (run_ st (grow_by base parts))
  /\ last (map after (run_ st (grow_by base parts))) st
     = {| lastSize := length base + list_sum (map length parts);
          headers := headers st |}.
Proof.
  revert st base. induction parts as [|a parts IH]; intros st base Hbase Hover Hall.
  - simpl. repeat split; try constructor.
    rewrite Nat.add_0_r, <- Hbase. symmetry. apply session_eta.
  - inversion Hall as [|? ? [Hne Hok] Hrest]; subst.
    assert (Hgrow : lastSize st < length (base ++ a)).
    { rewrite TextFacts.length_app.
      pose proof (TextFacts.length_pos a Hne). lia. }
    assert (Hcb : callback st (grown (base ++ a))
                  = Resolved {| lastSize := length (base ++ a);
                                headers := headers st |}
                             [ReadRange (length base) (length base + length a)]
                             (map (show (headers st)) (delivered (parse a)))).
    { rewrite growth_past_header by assumption. unfold emit_records.
      rewrite Hbase, TextFacts.drop_app_length, Hok.
      now rewrite TextFacts.length_app. }
    set (st1 := {| lastSize := length (base ++ a); headers := headers st |}).
    destruct (IH st1 (base ++ a)) as (He & Hr & Ht & Hl).
    + reflexivity.
    + right. unfold st1; simpl. lia.
    + exact Hrest.
    + cbn [grow_by run]. rewrite Hcb. cbn [after]. fold st1.
      unfold all_emitted, all_reads in *. cbn [flat_map emitted reads map].
      rewrite He, Hr. rewrite TextFacts.length_app.
      split; [reflexivity|]. split; [reflexivity|].
      split; [constructor; [reflexivity | exact Ht]|].
      rewrite last_after_cons. cbn [after]. rewrite Hl.
      unfold st1. cbn [headers]. f_equal.
      rewrite TextFacts.length_app. simpl. lia.
Qed.

(** A duplicate notification is read once or twice, depending on when
    it arrives.  For a session past its header stage and a change
    notification that finds the file grown: when the same notification
    arrives again after the first callback has ended, and that callback
    completed, the second opens no stream and shows nothing; when it
    arrives while the first callback still waits for its stream, the
    second callback opens the same range and shows the same rows
    again. *)
Theorem duplicate_is_read_once_or_twice (st : session) (content : string) :
  headers st <> [] \/ 0 < lastSize st ->
  lastSize st < length content ->
  (thrown (callback st (grown content)) = None ->
   map snd (overlapped parse parse_to_line_1 (quiet st)
              [arrives (grown content); settles 0; arrives (grown content)])
   = [callback st (grown content);
      Resolved (after (callback st (grown content))) [] []])
  /\ exists again,
       map snd (overlapped parse parse_to_line_1 (quiet st)
                  [arrives (grown content); arrives (grown content);
                   settles 0; settles 0])
       = [callback st (grown content); again]
       /\ reads again = [ReadRange (lastSize st) (length content)]
       /\ reads again = reads (callback st (grown content))
       /\ emitted again = emitted (callback st (grown content)).
Proof.
  intros Hover Hgrow.
  set (p := {| seen := length content;
               range := Text.drop (lastSize st) content;
               whole := None;
               streams := [ReadRange (lastSize st) (length content)] |}).
  assert (Hb : callback_begin st (grown content) = awaiting p).
  { unfold callback_begin; simpl.
    destruct (Nat.ltb_spec (lastSize st) (length content)); [|lia].
    rewrite read_range_to_end.
    destruct (Nat.eqb_spec (List.length (headers st)) 0) as [Hh|Hh];
      [|reflexivity].
    destruct (Nat.eqb_spec (lastSize st) 0) as [Hl|Hl]; [|reflexivity].
    apply length_zero_iff_nil in Hh. destruct Hover; [contradiction | lia]. }
  assert (Hc : callback st (grown content)
               = callback_finish parse parse_to_line_1 st p).
  { now rewrite callback_in_two, Hb. }
  assert (Hf : forall st', callback_finish parse parse_to_line_1 st' p
                 = emit_records parse st' (headers st')
                     [ReadRange (lastSize st) (length content)]
                     (Text.drop (lastSize st) content) (length content))
    by reflexivity.
  split.
  - intros Hdone.
    cbn [overlapped act quiet vars in_flight]. rewrite Hb.
    cbn [vars in_flight app nth_error drop_nth map snd]. rewrite <- Hc.
    assert (Hidle : callback_begin (after (callback st (grown content)))
                                   (grown content) = idle).
    { pose proof (completed_growth_offset st content Hgrow Hdone) as Hsize.
      unfold callback_begin; simpl.
      destruct (Nat.ltb_spec (lastSize (after (callback st (grown content))))
                             (length content)); [lia | reflexivity]. }
    rewrite Hidle. reflexivity.
  - exists (callback_finish parse parse_to_line_1
              (after (callback st (grown content))) p).
    split.
    + cbn [overlapped act quiet vars in_flight]. rewrite Hb.
      cbn [overlapped act vars in_flight]. rewrite Hb.
      cbn [vars in_flight app nth_error drop_nth map snd]. rewrite <- Hc.
      reflexivity.
    + assert (Hh : headers (after (callback st (grown content))) = headers st)
        by (apply headers_kept; exact Hover).
      remember (after (callback st (grown content))) as st1 eqn:E1.
      clear E1. rewrite Hc, (Hf st), (Hf st1). unfold emit_records.
      rewrite Hh.
      destruct (failure (parse (Text.drop (lastSize st) content)));
        cbn [reads emitted]; repeat split; reflexivity.
Qed.

End WatchRuns.

Section WatchHeaders.

Variable parse : string -> parsed.
Variable parse_to_line_1 : string -> parsed.

Abbreviation callback := (watch_callback parse parse_to_line_1).
Abbreviation run_ := (run parse parse_to_line_1).

(** A table row is shown under the header the callback leaves behind,
    and that header is not empty. *)
Lemma row_under_current_header
    (st : session) (n : notification) (h r : list string) :
  In (NewRow h r) (emitted (callback st n)) ->
  h = headers (after (callback st n)) /\ h <> [].
Proof.
  assert (Hshow : forall hs rs, In (NewRow h r) (map (show hs) rs) ->
                                h = hs /\ h <> []).
  { intros hs rs Hin. apply in_map_iff in Hin. destruct Hin as (x & Hx & _).
    unfold show in Hx. destruct hs as [|a hs]; simpl in Hx; [discriminate|].
    injection Hx as <- _. split; [reflexivity | discriminate]. }
  unfold watch_callback, emit_records.
  destruct (event n); [|intros []].
  destruct (file n) as [content|]; [|intros []].
  destruct (lastSize st <? length content)%nat; [|intros []].
  destruct (_ && _)%bool.
  - destruct (failure (parse_to_line_1 content)); [intros []|].
    destruct (failure (parse _)); simpl; apply Hshow.
  - destruct (failure (parse _)); simpl; apply Hshow.
Qed.

Lemma rows_under_set_header
    (ns : list notification) (st : session) (h r : list string) :
  headers st <> [] ->
  In (NewRow h r) (all_emitted (run_ st ns)) ->
  h = headers st.
Proof.
  revert st. induction ns as [|n ns IH]; intros st Hset; [intros []|].
  pose proof (headers_kept parse parse_to_line_1 st n (or_introl Hset)) as K.
  unfold all_emitted. cbn [run flat_map]. intros Hin.
  apply in_app_or in Hin. destruct Hin as [Hin|Hin].
  - apply row_under_current_header in Hin. destruct Hin as [-> _]. exact K.
  - rewrite <- K. apply IH; [congruence | exact Hin].
Qed.

(** One header for the whole session, when callbacks run one after the
    other: whatever notifications arrive, all the table rows the session
    shows, in all its callbacks, are shown under one and the same
    header.  (Callbacks that overlap at offset 0 can push the header
    twice; the rows of the second then carry it doubled.) *)
Theorem every_row_under_one_header
    (st : session) (ns : list notification) (h1 r1 h2 r2 : list string) :
  In (NewRow h1 r1) (all_emitted (run_ st ns)) ->
  In (NewRow h2 r2) (all_emitted (run_ st ns)) ->
  h1 = h2.
Proof.
  revert st. induction ns as [|n ns IH]; intros st; [intros []|].
  unfold all_emitted. cbn [run flat_map]. intros H1 H2.
  apply in_app_or in H1. apply in_app_or in H2.
  destruct H1 as [H1|H1], H2 as [H2|H2].
  - apply row_under_current_header in H1, H2.
    destruct H1 as [-> _], H2 as [-> _]. reflexivity.
  - apply row_under_current_header in H1. destruct H1 as [-> Hne].
    symmetry. now apply (rows_under_set_header ns _ h2 r2).
  - apply row_under_current_header in H2. destruct H2 as [-> Hne].
    now apply (rows_under_set_header ns _ h1 r1).
  - exact (IH _ H1 H2).
Qed.

End WatchHeaders.

(** ** Over the plain-text parser *)

Lemma check_length_fail_app (n : nat) (rs rs' : list (list string)) :
  failure (Csv.check_length n rs) <> None ->
  failure (Csv.check_length n (rs ++ rs')) <> None.
Proof.
  intros H Hok. apply H. apply CsvFacts.check_length_ok.
  apply CsvFacts.check_length_ok in Hok. apply Forall_app in Hok. tauto.
Qed.

(** A text that fails to parse and ends on a line boundary fails
    whatever is appended to it. *)
Lemma parse_fail_app (bad more : string) :
  snd (Text.cut bad) = "" ->
  failure (Csv.parse bad) <> None ->
  failure (Csv.parse (bad ++ more)) <> None.
Proof.
  intros Hcut. unfold Csv.parse. rewrite (CsvFacts.records_app bad more Hcut).
  destruct (Csv.records bad) as [|r rs]; [simpl; congruence|].
  change ((r :: rs) ++ Csv.records more)%list
    with (r :: (rs ++ Csv.records more))%list.
  apply (check_length_fail_app (List.length r) (r :: rs)).
Qed.

Lemma record_of_nonempty (line : string) : Csv.record_of line <> [].
Proof. unfold Csv.record_of. destruct (Csv.fields line). discriminate. Qed.

Lemma records_have_fields (s : string) :
  Forall (fun r => r <> []) (Csv.records s).
Proof.
  unfold Csv.records. destruct (Text.cut s) as [ls tail].
  apply Forall_forall. intros r Hr. apply in_map_iff in Hr.
  destruct Hr as (l & <- & _). apply record_of_nonempty.
Qed.

(** One bad line blocks the watch for good.  Once complete lines on
    which the parser fails have been appended past the session's offset,
    every growth callback of a file that only grows from there throws,
    opens its range at the same offset again, and leaves the offset where
    it was: nothing appended later is ever got past. *)
Theorem bad_line_blocks_the_watch
    (st : session) (base bad : string) (parts : list string) :
  lastSize st = length base ->
  Csv.plain bad = true ->
  Forall (fun a => Csv.plain a = true) parts ->
  Reassembler.pendingFragment bad = "" ->
  failure (Csv.parse bad) <> None ->
  Forall (fun o => thrown o <> None
                   /\ lastSize (after o) = length base
                   /\ exists end_, hd_error (reads o)
                                   = Some (ReadRange (length base) end_))
         (csv_run st (grow_by base (bad :: parts))).
Proof.
  intros Hbase _ _ Hfrag Hbad.
  unfold Reassembler.pendingFragment, Reassembler.feed in Hfrag.
  assert (Hne : 0 < length bad).
  { destruct bad; [|simpl; lia]. now contradiction Hbad. }
  assert (Hstep : forall st' more,
             lastSize st' = length base ->
             let o := csv_callback st' (grown (base ++ bad ++ more)) in
             thrown o <> None /\ lastSize (after o) = length base
             /\ exists end_, hd_error (reads o)
                             = Some (ReadRange (length base) end_)).
  { intros st' more Hst'. cbv zeta.
    assert (Hgrow : lastSize st' < length (base ++ bad ++ more))
      by (rewrite !TextFacts.length_app; lia).
    unfold csv_callback.
    destruct (failed_growth_offset Csv.parse Csv.parse_to_line_1 st'
                (base ++ bad ++ more) Hgrow) as [Ht Hl].
    - rewrite Hst', TextFacts.drop_app_length. now apply parse_fail_app.
    - split; [exact Ht|]. split; [congruence|].
      rewrite growth_reads_from_offset by assumption.
      rewrite Hst'. eauto. }
  assert (Haux : forall ps st' more,
             lastSize st' = length base ->
             Forall (fun o => thrown o <> None
                              /\ lastSize (after o) = length base
                              /\ exists end_, hd_error (reads o)
                                    = Some (ReadRange (length base) end_))
                    (csv_run st' (grow_by (base ++ bad ++ more) ps))).
  { induction ps as [|a ps IH]; intros st' more Hst'; [constructor|].
    cbn [grow_by]. unfold csv_run. cbn [run].
    replace ((base ++ bad ++ more) ++ a) with (base ++ bad ++ more ++ a)
      by now rewrite !TextFacts.app_assoc.
    destruct (Hstep st' (more ++ a) Hst') as (Ht & Hl & Hr).
    constructor; [now repeat split|].
    apply IH. exact Hl. }
  cbn [grow_by]. unfold csv_run. cbn [run].
  pose proof (Hstep st "" Hbase) as H0. cbv zeta in H0.
  rewrite TextFacts.app_empty_r in H0.
  constructor; [exact H0|].
  pose proof (Haux parts (after (csv_callback st (grown (base ++ bad)))) "")
    as H1.
  rewrite TextFacts.app_empty_r in H1. apply H1. apply H0.
Qed.

(** The header line is shown as a row.  When the watch starts on an
    empty file and the first growth parses, the callback takes the first
    record as the header and then shows every record of the file under
    it, the header record itself being the first row. *)
Theorem header_line_is_echoed (content : string) :
  content <> "" ->
  Csv.plain content = true ->
  failure (Csv.parse content) = None ->
  exists h rest,
    Csv.records content = h :: rest
    /\ csv_callback (handleStream_start "") (grown content)
       = Resolved {| lastSize := length content; headers := h |}
                  [ReadRange 0 (length content); ReadWhole]
                  (NewRow h h :: map (NewRow h) rest).
Proof.
  intros Hne _ Hok.
  pose proof (CsvFacts.records_nonempty content Hne) as Hrec.
  pose proof (records_have_fields content) as Hfields.
  destruct (Csv.records content) as [|h rest] eqn:Er; [contradiction|].
  exists h, rest. split; [reflexivity|].
  inversion Hfields as [|? ? Hh _]; subst.
  unfold csv_callback. rewrite callback_growth
    by (simpl; apply TextFacts.length_pos; exact Hne).
  cbv zeta. unfold emit_records.
  cbn [handleStream_start lastSize headers List.length Nat.eqb andb
       Csv.parse_to_line_1 delivered failure Text.drop].
  rewrite Er. cbn [firstn List.concat app]. rewrite app_nil_r.
  change (length "") with 0. cbn [Nat.eqb Text.drop].
  rewrite Hok, (CsvFacts.parse_ok_delivered content Hok), Er.
  assert (Hshow : forall r, show h r = NewRow h r).
  { intros r. unfold show. destruct h; [contradiction | reflexivity]. }
  cbn [map]. rewrite Hshow. f_equal. f_equal.
  apply map_ext. exact Hshow.
Qed.

(** * Further properties of the search *)

Lemma substring_of_trans (a b c : string) :
  substring_of a b -> substring_of b c -> substring_of a c.
Proof.
  intros (x & y & ->) (u & v & ->).
  exists (u ++ x), (y ++ v).
  now rewrite !TextFacts.app_assoc.
Qed.

Lemma filter_first {A : Type} (f : A -> bool) (l : list A) (x : A) (rest : list A) :
  filter f l = x :: rest ->
  exists pre post,
    l = (pre ++ x :: post)%list
    /\ Forall (fun r => f r = false) pre /\ f x = true.
Proof.
  induction l as [|y l IH]; simpl; [discriminate|].
  destruct (f y) eqn:Fy.
  - intros H. injection H as -> _. exists [], l. repeat split; auto.
  - intros H. destruct (IH H) as (pre & post & -> & Hpre & Hx).
    exists (y :: pre), post. repeat split; auto.
Qed.

Lemma filter_narrow {A : Type} (f g : A -> bool) (l : list A) :
  (forall x, g x = true -> f x = true) ->
  filter g (filter f l) = filter g l.
Proof.
  intros H. induction l as [|x l IH]; simpl; [reflexivity|].
  destruct (f x) eqn:Fx; simpl.
  - now rewrite IH.
  - destruct (g x) eqn:Gx; [|exact IH].
    apply H in Gx. congruence.
Qed.

Section SearchMore.

Variable toLowerCase : string -> string.

(** A term that contains another narrows its results.  When the lower
    case of one term occurs in the lower case of a second, every result of
    the second is a result of the first, and searching the results of the
    first for the second gives what searching all records for the second
    gives; in particular searching the results again for the same term
    changes nothing. *)
Theorem longer_term_narrows_results
    (records : list record) (t1 t2 : string) :
  substring_of (toLowerCase t1) (toLowerCase t2) ->
  search_results toLowerCase (search_results toLowerCase records t1) t2
  = search_results toLowerCase records t2
  /\ (forall r, In r (search_results toLowerCase records t2) ->
                In r (search_results toLowerCase records t1))
  /\ search_results toLowerCase (search_results toLowerCase records t2) t2
     = search_results toLowerCase records t2.
Proof.
  intros Hsub.
  assert (Himp : forall r, found toLowerCase (toLowerCase t2) r = true ->
                           found toLowerCase (toLowerCase t1) r = true).
  { intros r. rewrite !found_spec. intros (v & Hin & Hv).
    exists v. split; [exact Hin|]. eapply substring_of_trans; eassumption. }
  unfold search_results. split; [now apply filter_narrow|]. split.
  - intros r. rewrite !filter_In. intros [Hin Hf]. auto.
  - apply filter_narrow. auto.
Qed.

(** The table of a search.  When the search prints a table it has one
    row for each matching record, in the order of the file; the number
    printed after it is the number of rows, at least one and at most the
    number of records; its head is the list of columns of the first
    record of the file that matches, and every column is given the
    width 20. *)
Theorem table_lists_every_match
    (records : list record) (searchTerm : string)
    (head : list string) (widths : list nat) (rows : list (list string)) :
  In (TablePrinted head widths rows)
     (handleSearch toLowerCase records searchTerm) ->
  rows = map (fun row => map cell_text (Object_values row))
             (search_results toLowerCase records searchTerm)
  /\ In (MatchCount (List.length rows))
        (handleSearch toLowerCase records searchTerm)
  /\ 1 <= List.length rows <= List.length records
  /\ widths = repeat 20 (List.length head)
  /\ exists pre first post,
       records = (pre ++ first :: post)%list
       /\ Forall (fun r => found toLowerCase (toLowerCase searchTerm) r = false)
                 pre
       /\ found toLowerCase (toLowerCase searchTerm) first = true
       /\ head = Object_keys first.
Proof.
  unfold handleSearch.
  destruct (search_results toLowerCase records searchTerm) as [|first rest] eqn:E.
  - simpl. intros [H|[H|[H|[]]]]; discriminate.
  - cbv zeta. intros [H|[H|[H|[H|[]]]]]; try discriminate.
    injection H as <- <- <-.
    split; [reflexivity|]. cbn [List.length]. rewrite length_map. split.
    + right; right; right; left; reflexivity.
    + split.
      * pose proof (filter_length_le
                      (found toLowerCase (toLowerCase searchTerm)) records) as L.
        unfold search_results in E. rewrite E in L. simpl in *. lia.
      * split; [reflexivity|].
        unfold search_results in E.
        destruct (filter_first _ _ _ _ E) as (pre & post & Hl & Hpre & Hf).
        exists pre, first, post. auto.
Qed.

(** Every row pushed to the table holds the term.  When every cell of
    the records is a string, each row the search pushes to the table
    (lines 71-78) has a cell whose lower case contains the search term in
    lower case.  (The table is given columns of width 20, see above;
    what the table library prints of a longer cell is not stated
    here.) *)
Theorem pushed_rows_contain_the_term
    (records : list record) (searchTerm : string)
    (head : list string) (widths : list nat) (rows : list (list string)) :
  Forall (fun r => Forall (fun v => exists s, v = Str s) (Object_values r))
         records ->
  In (TablePrinted head widths rows)
     (handleSearch toLowerCase records searchTerm) ->
  Forall (fun row => exists c, In c row
                       /\ substring_of (toLowerCase searchTerm) (toLowerCase c))
         rows.
Proof.
  intros Hstr Hin.
  assert (Hrows : rows = map (fun row => map cell_text (Object_values row))
                             (search_results toLowerCase records searchTerm)).
  { unfold handleSearch in Hin.
    destruct (search_results toLowerCase records searchTerm) as [|first rest].
    - simpl in Hin. destruct Hin as [H|[H|[H|[]]]]; discriminate.
    - cbv zeta in Hin. destruct Hin as [H|[H|[H|[H|[]]]]]; try discriminate.
      now injection H as _ _ <-. }
  subst rows. apply Forall_forall. intros row Hrow.
  apply in_map_iff in Hrow. destruct Hrow as (r & <- & Hr).
  unfold search_results in Hr. apply filter_In in Hr. destruct Hr as [Hrec Hf].
  apply found_spec in Hf. destruct Hf as (v & Hv & Hsub).
  rewrite Forall_forall in Hstr. specialize (Hstr r Hrec).
  rewrite Forall_forall in Hstr. destruct (Hstr v Hv) as [s ->].
  exists s. split; [|exact Hsub].
  apply in_map_iff. exists (Str s). split; [reflexivity | exact Hv].
Qed.

(** A search prints a table only when the parser has yielded all its
    records without failing. *)
Lemma table_needs_a_complete_parse
    (p : parsed_records) (searchTerm : string)
    (head : list string) (widths : list nat) (rows : list (list string)) :
  In (TablePrinted head widths rows)
     (fst (handleSearch_from toLowerCase p searchTerm)) ->
  broke p = None.
Proof.
  unfold handleSearch_from. destruct (broke p); [|reflexivity].
  intros [H|[]]. discriminate.
Qed.

End SearchMore.

(** ** Instances *)

Lemma range_read_is_the_tail_witness :
  read_range (header_and_ann ++ part1) 14 18
  = Text.drop 14 (header_and_ann ++ part1)
  /\ Text.take 14 (header_and_ann ++ part1)
     ++ read_range (header_and_ann ++ part1) 14 18
     = header_and_ann ++ part1
  /\ length (read_range (header_and_ann ++ part1) 14
                        (length (header_and_ann ++ part1)))
     = length (header_and_ann ++ part1) - 14.
Proof.
  apply (range_read_is_the_tail (header_and_ann ++ part1) 14 18);
    vm_compute; lia.
Defined.

Lemma append_only_read_once_witness :
  all_emitted (csv_run after_ann (grow_by header_and_ann [bob_line; cy_line]))
  = flat_map (fun a => map (show (headers after_ann)) (delivered (Csv.parse a)))
             [bob_line; cy_line]
  /\ all_reads (csv_run after_ann (grow_by header_and_ann [bob_line; cy_line]))
     = ranges (length header_and_ann) [bob_line; cy_line]
  /\ Forall (fun o => thrown o = None)
            (csv_run after_ann (grow_by header_and_ann [bob_line; cy_line]))
  /\ last (map after
             (csv_run after_ann (grow_by header_and_ann [bob_line; cy_line])))
          after_ann
     = {| lastSize := length header_and_ann
                      + list_sum (map length [bob_line; cy_line]);
          headers := headers after_ann |}.
Proof.
  apply (append_only_read_once Csv.parse Csv.parse_to_line_1
           [bob_line; cy_line] after_ann header_and_ann).
  - reflexivity.
  - left; discriminate.
  - repeat constructor; discriminate.
Defined.

Lemma duplicate_is_read_once_or_twice_witness :
  map snd (overlapped Csv.parse Csv.parse_to_line_1 (quiet after_ann)
             [arrives (grown (header_and_ann ++ bob_line)); settles 0;
              arrives (grown (header_and_ann ++ bob_line))])
  = [csv_callback after_ann (grown (header_and_ann ++ bob_line));
     Resolved (after (csv_callback after_ann (grown (header_and_ann ++ bob_line))))
              [] []].
Proof.
  assert (Hover : headers after_ann <> [] \/ 0 < lastSize after_ann)
    by (left; discriminate).
  assert (Hgrow : lastSize after_ann < length (header_and_ann ++ bob_line))
    by (vm_compute; lia).
  exact (proj1 (duplicate_is_read_once_or_twice Csv.parse Csv.parse_to_line_1
                  after_ann (header_and_ann ++ bob_line) Hover Hgrow)
               eq_refl).
Defined.

Lemma bad_line_blocks_the_watch_witness :
  Forall (fun o => thrown o <> None
                   /\ lastSize (after o) = length header_and_ann
                   /\ exists end_, hd_error (reads o)
                         = Some (ReadRange (length header_and_ann) end_))
         (csv_run after_ann (grow_by header_and_ann [bad_rows; bob_line; cy_line])).
Proof.
  apply (bad_line_blocks_the_watch after_ann header_and_ann bad_rows
           [bob_line; cy_line]).
  - reflexivity.
  - reflexivity.
  - repeat constructor.
  - reflexivity.
  - discriminate.
Defined.

Lemma header_line_is_echoed_witness :
  exists h rest,
    Csv.records header_and_ann = h :: rest
    /\ csv_callback (handleStream_start "") (grown header_and_ann)
       = Resolved {| lastSize := length header_and_ann; headers := h |}
                  [ReadRange 0 (length header_and_ann); ReadWhole]
                  (NewRow h h :: map (NewRow h) rest).
Proof.
  apply (header_line_is_echoed header_and_ann);
    [discriminate | reflexivity | reflexivity].
Defined.

Lemma longer_term_narrows_results_witness :
  search_results lower (search_results lower [ann; bob] "an") "Ann"
  = search_results lower [ann; bob] "Ann"
  /\ (forall r, In r (search_results lower [ann; bob] "Ann") ->
                In r (search_results lower [ann; bob] "an"))
  /\ search_results lower (search_results lower [ann; bob] "Ann") "Ann"
     = search_results lower [ann; bob] "Ann".
Proof.
  apply (longer_term_narrows_results lower [ann; bob] "an" "Ann").
  exists "", "n". reflexivity.
Defined.

Lemma table_lists_every_match_witness :
  [["1"; "Ann"]]
  = map (fun row => map cell_text (Object_values row))
        (search_results lower [bob; ann] "aN")
  /\ In (MatchCount (List.length [["1"; "Ann"]]))
        (handleSearch lower [bob; ann] "aN")
  /\ 1 <= List.length [["1"; "Ann"]] <= List.length [bob; ann]
  /\ [20; 20] = repeat 20 (List.length ["id"; "name"])
  /\ exists pre first post,
       [bob; ann] = (pre ++ first :: post)%list
       /\ Forall (fun r => found lower (lower "aN") r = false) pre
       /\ found lower (lower "aN") first = true
       /\ ["id"; "name"] = Object_keys first.
Proof.
  apply (table_lists_every_match lower [bob; ann] "aN"
           ["id"; "name"] [20; 20] [["1"; "Ann"]]).
  right; right; left; reflexivity.
Defined.

Lemma pushed_rows_contain_the_term_witness :
  Forall (fun row => exists c, In c row
                       /\ substring_of (lower "aN") (lower c))
         [["1"; "Ann"]].
Proof.
  apply (pushed_rows_contain_the_term lower [bob; ann] "aN"
           ["id"; "name"] [20; 20] [["1"; "Ann"]]).
  - repeat constructor; eexists; reflexivity.
  - right; right; left; reflexivity.
Defined.

Lemma every_row_under_one_header_witness :
  In (NewRow id_name ["1"; "Ann"])
     (all_emitted (csv_run (handleStream_start "")
        [grown header_and_ann; grown (header_and_ann ++ bob_line)]))
  /\ In (NewRow id_name ["2"; "Bob"])
        (all_emitted (csv_run (handleStream_start "")
           [grown header_and_ann; grown (header_and_ann ++ bob_line)]))
  /\ id_name = id_name.
Proof.
  assert (H1 : In (NewRow id_name ["1"; "Ann"])
     (all_emitted (csv_run (handleStream_start "")
        [grown header_and_ann; grown (header_and_ann ++ bob_line)])))
    by (right; left; reflexivity).
  assert (H2 : In (NewRow id_name ["2"; "Bob"])
     (all_emitted (csv_run (handleStream_start "")
        [grown header_and_ann; grown (header_and_ann ++ bob_line)])))
    by (right; right; left; reflexivity).
  split; [exact H1|]. split; [exact H2|].
  exact (every_row_under_one_header Csv.parse Csv.parse_to_line_1
           (handleStream_start "")
           [grown header_and_ann; grown (header_and_ann ++ bob_line)]
           id_name ["1"; "Ann"] id_name ["2"; "Bob"] H1 H2).
Defined.
